(** * Patient test results: fetching, reconstruction, range assessment,
      freshness cache and timeline pivot

    A shallow embedding of the helpers of [loadPatientTestData] (cache,
    page fetcher, concept resolver, range assessor), of [loadPatientData]
    and of the pivot of [timeline/useTimelineData.ts], followed by the
    properties of the specification that can be stated over it.

    Conventions of the embedding.
    - A JavaScript number is a rational [Q] (every finite double is one, and
      the order on finite doubles is the order on [Q]); counts, indices and
      page offsets are [nat]; epoch milliseconds are [Z].
    - A JavaScript object whose key order is observable ([Object.entries])
      is an association list in insertion order; an object used only for
      lookups is a [gmap].  Concept uuids and display names are taken to be
      ordinary keys.  Patient identifiers and member test names are
      arbitrary strings: the cache enumerates array-index keys first
      ([Object_ownEntries]), and the pivot reads the properties every
      object inherits ([inherited]).
    - An array with holes is a [list (option A)]; [None] is a hole or
      [undefined] (spreading an array turns the former into the latter,
      both read as [undefined]).
    - A rejected promise or a thrown [TypeError] is [None] in the option
      monad; the value [undefined] returned by a function is an inner
      [None].
    - Arrays that are mutated after having been stored elsewhere (the
      [members] array of a panel) live in a store and are referred to by
      handle. *)

From Stdlib Require Import QArith ZArith Ascii Lqa.
From stdpp Require Import gmap strings list fin_maps sorting.
Close Scope Q_scope.
#[local] Set Warnings "-clear-no-such-hyp".

(** ** JavaScript objects in insertion order *)

Abbreviation JsObject V := (list (string * V)).

(** [o[k]] *)
Fixpoint obj_get {V} (o : JsObject V) (k : string) : option V :=
  match o with
  | [] => None
  | (k', v) :: o' => if decide (k' = k) then Some v else obj_get o' k
  end.

(** [o[k] = v]: an existing key keeps its position, a new key goes last. *)
Fixpoint obj_set {V} (o : JsObject V) (k : string) (v : V) : JsObject V :=
  match o with
  | [] => [(k, v)]
  | (k', v') :: o' =>
      if decide (k' = k) then (k, v) :: o' else (k', v') :: obj_set o' k v
  end.

(** In-place update of the value stored under an existing key
    ([o[k].push(x)] with [f] the push). *)
Fixpoint obj_update {V} (f : V → V) (o : JsObject V) (k : string) : JsObject V :=
  match o with
  | [] => []
  | (k', v) :: o' =>
      if decide (k' = k) then (k', f v) :: o' else (k', v) :: obj_update f o' k
  end.

(** [Object.entries] of an object none of whose keys is an array index
    (concept uuids, display names): insertion order.  For arbitrary keys see
    [Object_ownEntries] below. *)
Definition Object_entries {V} (o : JsObject V) : list (string * V) := o.

Definition Object_fromEntries {V} (kvs : list (string * V)) : JsObject V :=
  foldl (λ o kv, obj_set o kv.1 kv.2) [] kvs.

(** ** Arrays *)

(** [new Array(n)] *)
Definition new_Array {A} (n : nat) : list (option A) := replicate n None.

(** [a[i] = v]; beyond the end the array is extended with holes. *)
Definition Array_set {A} (a : list (option A)) (i : nat) (v : A) : list (option A) :=
  if decide (i < length a) then <[i := Some v]> a
  else a ++ replicate (i - length a) None ++ [Some v].

(** [Array.prototype.sort] with a consistent comparator is a stable sort:
    [a] stays before [b] unless [compare a b > 0]. *)
Fixpoint sort_insert {A} (compare : A → A → Z) (x : A) (l : list A) : list A :=
  match l with
  | [] => [x]
  | y :: l' =>
      if decide (compare x y ≤ 0)%Z then x :: y :: l'
      else y :: sort_insert compare x l'
  end.

Definition Array_sort {A} (compare : A → A → Z) (l : list A) : list A :=
  foldr (sort_insert compare) [] l.

(** [Promise.all]: rejected as soon as one promise is. *)
Definition Promise_all {A} (promises : list (option A)) : option (list A) :=
  mapM (λ p, p) promises.

(** [Math.ceil(a / b)] on counts. *)
Definition Math_ceil_div (a b : nat) : nat := (a + (b - 1)) / b.

(** [[...new Set(l)]]: first occurrences, in order. *)
Definition uniq (l : list string) : list string :=
  foldl (λ seen x, if decide (x ∈ seen) then seen else seen ++ [x]) [] l.

(** ** Property keys that are array indices *)

(** The decimal digit a character stands for. *)
Definition digitOf (c : Ascii.ascii) : option N :=
  let n := N_of_ascii c in
  if decide (48 ≤ n ≤ 57)%N then Some (n - 48)%N else None.

Fixpoint parseDigits (acc : N) (s : string) : option N :=
  match s with
  | EmptyString => Some acc
  | String c s' => d ← digitOf c; parseDigits (10 * acc + d)%N s'
  end.

(** The integer whose canonical decimal string (no sign, no leading zero)
    the key is, if any. *)
Definition canonicalNumber (k : string) : option N :=
  match k with
  | EmptyString => None
  | String c s' =>
      if decide (c = "0"%char ∧ s' ≠ EmptyString) then None
      else parseDigits 0 k
  end.

(** The array index a property key denotes, if any: an integer below
    2^32 - 1. *)
Definition arrayIndex (k : string) : option N :=
  n ← canonicalNumber k;
  if decide (n < 2 ^ 32 - 1)%N then Some n else None.

(** [Object.entries] in the order the language defines: the keys that are
    array indices in ascending numeric order, then the other keys in
    insertion order.  (The ascending sort is the insertion sort above.) *)
Definition Object_ownEntries {V} (o : JsObject V) : list (string * V) :=
  let indexed := omap (λ kv, n ← arrayIndex kv.1; Some (n, kv)) o in
  (snd <$> Array_sort (λ a b, Z.of_N a.1 - Z.of_N b.1)%Z indexed)
  ++ filter (λ kv, arrayIndex kv.1 = None) o.

(** ** Types (types.ts, and the wire format of the remote API) *)

Abbreviation ConceptUuid := string (only parsing).
Abbreviation ObsUuid := string (only parsing).

(** A reference bound of a concept: the REST resource carries a number or
    [null], and the field may be missing. *)
Inductive bound := null | undefined | num (q : Q).

Record ObsMetaInfo := {
  hiAbsolute : bound;
  hiCritical : bound;
  hiNormal : bound;
  lowAbsolute : bound;
  lowCritical : bound;
  lowNormal : bound;
  units : option string;
  datatype : string;
  (** the two bounds printed by the template [`${lowNormal} – ${hiNormal}`] *)
  range : option (bound * bound)
}.

Record Reference := { reference : string }.

Module Fhir.

Record Quantity := { value : Q }.

(** An Observation resource as received; [code] stands for
    [code.coding[0].code]. *)
Record Observation := {
  id : ObsUuid;
  code : ConceptUuid;
  effectiveDateTime : string;
  hasMember : option (list Reference);
  valueQuantity : option Quantity
}.

Record BundleEntry := { resource : Observation }.

Record Bundle := { total : nat; entry : option (list BundleEntry) }.

End Fhir.

Module ConceptClass.

Record ConceptClass := { name : string; display : string }.

End ConceptClass.

Module Concept.

(** [datatype] stands for [datatype.display]. *)
Record ConceptRecord := {
  uuid : ConceptUuid;
  display : string;
  conceptClass : ConceptClass.ConceptClass;
  hiAbsolute : bound;
  hiCritical : bound;
  hiNormal : bound;
  lowAbsolute : bound;
  lowCritical : bound;
  lowNormal : bound;
  units : option string;
  datatype : string
}.

End Concept.

(** An observation after [parseSingleObsData]: the fields the widgets read.
    [M] is what the [members] property holds: a handle into the store while
    the arrays are still being filled, the array itself in published data.
    [valueQuantity] is gone (deleted when present), [conceptClass] is
    [code.coding[0].code]. *)
Record Obs (M : Type) := {
  id : ObsUuid;
  effectiveDateTime : string;
  hasMember : option (list Reference);
  conceptClass : ConceptUuid;
  meta : option ObsMetaInfo;
  value : option Q;
  name : option string;
  members : option M
}.
Arguments Build_Obs {M}.
Arguments id {M}.
Arguments effectiveDateTime {M}.
Arguments hasMember {M}.
Arguments conceptClass {M}.
Arguments meta {M}.
Arguments value {M}.
Arguments name {M}.
Arguments members {M}.

Abbreviation handle := nat (only parsing).
(** an observation whose [members] array lives in the store *)
Abbreviation StoredObs := (Obs nat).
(** an observation with its [members] array *)
Abbreviation ObsRecord := (Obs (list (option (Obs nat)))).

Record PatientGroup := {
  entries : list ObsRecord;
  type : string;
  group_uuid : ConceptUuid
}.

Abbreviation PatientData := (JsObject PatientGroup).

(** ** The remote API *)

(** An Observation search; category, sort, summary and format are constant. *)
Record Request := {
  patient : string;
  count : nat;
  getpagesoffset : nat
}.

Record World := {
  fetchObservation : Request → option Fhir.Bundle;
  fetchConcept : ConceptUuid → option Concept.ConceptRecord
}.

(** ** The helpers of loadPatientTestData *)

Definition PAGE_SIZE : nat := 100.
Definition CHUNK_PREFETCH_COUNT : nat := 6.

(** The generator [fhirObservationRequests]: each [next()] issues the fetch
    of the page at [offsetCounter] and increments the counter. *)
Record RequestIterator := {
  queries : string * nat;
  offsetCounter : nat
}.

Definition fhirObservationRequests (patientUuid : string) (pageCount : nat)
  : RequestIterator :=
  {| queries := (patientUuid, pageCount); offsetCounter := 0 |}.

Definition next (it : RequestIterator) : Request * RequestIterator :=
  ({| patient := (queries it).1; count := (queries it).2;
      getpagesoffset := offsetCounter it * PAGE_SIZE |},
   {| queries := queries it; offsetCounter := S (offsetCounter it) |}).

(** [retrieveFromIterator]: the requests issued, in order, and the iterator
    afterwards. *)
Fixpoint retrieveFromIterator (it : RequestIterator) (length : nat)
  : list Request * RequestIterator :=
  match length with
  | 0 => ([], it)
  | S n =>
      let '(r, it') := next it in
      let '(rs, it'') := retrieveFromIterator it' n in
      (r :: rs, it'')
  end.

(** *** The freshness cache *)

Abbreviation CacheRecord := (PatientData * Z * string)%type.

(** [now] is the value of [Date.now()]. *)
Definition addUserDataToCache (patientResultsDataCache : JsObject CacheRecord)
    (now : Z) (patientUuid : string) (data : PatientData) (indicator : string)
  : JsObject CacheRecord :=
  let patientResultsDataCache :=
    obj_set patientResultsDataCache patientUuid (data, now, indicator) in
  let currentStateEntries := Object_ownEntries patientResultsDataCache in
  if decide (3 < length currentStateEntries) then
    let sorted :=
      Array_sort (λ a b, (b.2.1.2 - a.2.1.2)%Z) currentStateEntries in
    Object_fromEntries (take 3 sorted)
  else patientResultsDataCache.

(** [(await request.next().value)?.entry?.[0]?.resource?.id] *)
Definition getLatestObsUuid (w : World) (patientUuid : string)
  : option (option string) :=
  let request := fhirObservationRequests patientUuid 1 in
  response ← fetchObservation w (next request).1;
  Some (Fhir.id ∘ Fhir.resource <$> (Fhir.entry response ≫= head)).

(** The probe is only issued when an entry exists ([&&] short-circuits);
    the stored data is an object, hence truthy. *)
Definition getUserDataFromCache (w : World)
    (patientResultsDataCache : JsObject CacheRecord) (patientUuid : string)
  : option (option PatientData) :=
  match obj_get patientResultsDataCache patientUuid with
  | None => Some None
  | Some (data, _, indicator) =>
      latest ← getLatestObsUuid w patientUuid;
      Some (if decide (latest = Some indicator) then Some data else None)
  end.

(** The creation time of a cache entry, [Date.now()] at the time of the put. *)
Definition created (kv : string * CacheRecord) : Z := kv.2.1.2.

(** *** The page fetcher *)

(** The requests issued and the outcome. *)
Definition loadObsEntries (w : World) (patientUuid : string)
  : list Request * option (list Fhir.Observation) :=
  let requests := fhirObservationRequests patientUuid PAGE_SIZE in
  let '(issued, requests) := retrieveFromIterator requests CHUNK_PREFETCH_COUNT in
  match Promise_all (fetchObservation w <$> issued) with
  | None => (issued, None)
  | Some responses =>
      match head responses with
      | None => (issued, None)
      | Some first =>
          let total := Fhir.total first in
          let '(issued, responses) :=
            if decide (CHUNK_PREFETCH_COUNT * PAGE_SIZE < total) then
              let missingRequestsCount :=
                Math_ceil_div total PAGE_SIZE - CHUNK_PREFETCH_COUNT in
              let '(more, _) := retrieveFromIterator requests missingRequestsCount in
              (issued ++ more,
               rest ← Promise_all (fetchObservation w <$> more);
               Some (responses ++ rest))
            else (issued, Some responses) in
          (issued,
           responses ← responses;
           pages ← mapM (λ res, fmap Fhir.resource <$> Fhir.entry res)
                     (take (Math_ceil_div total PAGE_SIZE) responses);
           Some (concat pages))
      end
  end.

(** The request for the page at [offset] of the search [q]. *)
Definition pageRequest (q : string * nat) (offset : nat) : Request :=
  {| patient := q.1; count := q.2; getpagesoffset := offset * PAGE_SIZE |}.

(** The prefetch window: the first [CHUNK_PREFETCH_COUNT] pages. *)
Definition prefetch_requests (patientUuid : string) : list Request :=
  pageRequest (patientUuid, PAGE_SIZE) <$> seq 0 CHUNK_PREFETCH_COUNT.

(** The remote holds [data] for the patient and pages it faithfully. *)
Definition paginates (w : World) (patientUuid : string)
    (data : list Fhir.Observation) : Prop :=
  ∀ offset,
    fetchObservation w (pageRequest (patientUuid, PAGE_SIZE) offset)
    = Some {| Fhir.total := length data;
              Fhir.entry :=
                Some (Fhir.Build_BundleEntry
                        <$> take PAGE_SIZE (drop (offset * PAGE_SIZE) data)) |}.

Definition getEntryConceptClassUuid (entry : Fhir.Observation) : ConceptUuid :=
  Fhir.code entry.

(** *** The concept resolver; [conceptCache] memoizes the promises. *)

Definition loadConcept (w : World)
    (st : gmap string (option Concept.ConceptRecord)
          * list (option Concept.ConceptRecord))
    (conceptUuid : ConceptUuid) :=
  match st.1 !! conceptUuid with
  | Some promise => (st.1, st.2 ++ [promise])
  | None =>
      let promise := fetchConcept w conceptUuid in
      (<[conceptUuid := promise]> st.1, st.2 ++ [promise])
  end.

Definition loadPresentConcepts (w : World)
    (conceptCache : gmap string (option Concept.ConceptRecord))
    (entries : list Fhir.Observation)
  : gmap string (option Concept.ConceptRecord)
    * option (list Concept.ConceptRecord) :=
  let '(conceptCache, promises) :=
    foldl (loadConcept w) (conceptCache, [])
          (uniq (getEntryConceptClassUuid <$> entries)) in
  (conceptCache, Promise_all promises).

(** *** The range assessor *)

Fixpoint exist (args : list bound) : bool :=
  match args with
  | [] => true
  | y :: rest =>
      match y with
      | null | undefined => false
      | num _ => exist rest
      end
  end.

Inductive OBSERVATION_INTERPRETATION :=
  | NORMAL
  | HIGH
  | CRITICALLY_HIGH
  | OFF_SCALE_HIGH
  | LOW
  | CRITICALLY_LOW
  | OFF_SCALE_LOW.

Definition Qltb (x y : Q) : bool := negb (Qle_bool y x).

(** [>] and [<] between a number and a bound: [null] converts to 0,
    [undefined] to NaN, which compares false. *)
Definition js_gt (value : Q) (b : bound) : bool :=
  match b with
  | null => Qltb 0 value
  | undefined => false
  | num q => Qltb q value
  end.

Definition js_lt (value : Q) (b : bound) : bool :=
  match b with
  | null => Qltb value 0
  | undefined => false
  | num q => Qltb value q
  end.

Definition assessValue (meta : ObsMetaInfo) (value : Q)
  : OBSERVATION_INTERPRETATION :=
  if exist [hiAbsolute meta] && js_gt value (hiAbsolute meta) then OFF_SCALE_HIGH
  else if exist [hiCritical meta] && js_gt value (hiCritical meta) then CRITICALLY_HIGH
  else if exist [hiNormal meta] && js_gt value (hiNormal meta) then HIGH
  else if exist [lowAbsolute meta] && js_lt value (lowAbsolute meta) then OFF_SCALE_LOW
  else if exist [lowCritical meta] && js_lt value (lowCritical meta) then CRITICALLY_LOW
  else if exist [lowNormal meta] && js_lt value (lowNormal meta) then LOW
  else NORMAL.

(** The [assessValue] property of the record is [assessValue meta]. *)
Definition extractMeta (c : Concept.ConceptRecord) : ConceptUuid * ObsMetaInfo :=
  (Concept.uuid c,
   {| hiAbsolute := Concept.hiAbsolute c;
      hiCritical := Concept.hiCritical c;
      hiNormal := Concept.hiNormal c;
      lowAbsolute := Concept.lowAbsolute c;
      lowCritical := Concept.lowCritical c;
      lowNormal := Concept.lowNormal c;
      units := Concept.units c;
      datatype := Concept.datatype c;
      range :=
        if exist [Concept.hiNormal c; Concept.lowNormal c]
        then Some (Concept.lowNormal c, Concept.hiNormal c) else None |}).

Definition extractMetaInformation (concepts : list Concept.ConceptRecord)
  : JsObject ObsMetaInfo :=
  Object_fromEntries (extractMeta <$> concepts).

(** ** loadPatientData *)

(** [s.split(sep)] for a one-character separator. *)
Fixpoint String_split (sep : Ascii.ascii) (s : string) : list string :=
  match s with
  | EmptyString => [EmptyString]
  | String c s' =>
      if Ascii.eqb c sep then EmptyString :: String_split sep s'
      else match String_split sep s' with
           | [] => [String c EmptyString]
           | word :: words => String c word :: words
           end
  end.

(** [memb.reference.split("/")[1]] used as a property key: a missing second
    segment is the key ["undefined"]. *)
Definition memberKey (memb : Reference) : string :=
  nth 1 (String_split "/"%char (reference memb)) "undefined".

(** The state of one reconstruction: the [members] arrays allocated so far
    (a handle is an index into [arrays]), the back-pointer table and the two
    collections the entries are sorted into. *)
Record Reconstruction := {
  arrays : list (list (option StoredObs));
  memberRefs : gmap string (nat * nat);
  obsByClass : JsObject (list StoredObs);
  singeEntries : list StoredObs
}.

(** [entry.hasMember.forEach((memb, i) => memberRefs[key memb] = [entry.members, i])] *)
Definition registerMembers (members : handle) (memberRefs : gmap string (nat * nat))
    (hasMember : list Reference) : gmap string (nat * nat) :=
  foldl (λ refs im, <[memberKey im.2 := (members, im.1)]> refs) memberRefs
        (imap (λ i memb, (i, memb)) hasMember).

(** [parseSingleObsData]: the store and the table after the call, and the
    entry as mutated. *)
Definition parseSingleObsData (testConceptNameMap : JsObject string)
    (metaInfomation : JsObject ObsMetaInfo)
    (arrays : list (list (option StoredObs)))
    (memberRefs : gmap string (nat * nat))
    (entry : Fhir.Observation)
  : list (list (option StoredObs)) * gmap string (nat * nat) * StoredObs :=
  let conceptClass := getEntryConceptClassUuid entry in
  let '(arrays, memberRefs, members, meta) :=
    match Fhir.hasMember entry with
    | Some hasMember =>
        (* is a panel *)
        (arrays ++ [new_Array (length hasMember)],
         registerMembers (length arrays) memberRefs hasMember,
         Some (length arrays), None)
    | None =>
        (* is a single test *)
        (arrays, memberRefs, None, obj_get metaInfomation conceptClass)
    end in
  (arrays, memberRefs,
   {| id := Fhir.id entry;
      effectiveDateTime := Fhir.effectiveDateTime entry;
      hasMember := Fhir.hasMember entry;
      conceptClass := conceptClass;
      meta := meta;
      value := Fhir.value <$> Fhir.valueQuantity entry;
      name := obj_get testConceptNameMap conceptClass;
      members := members |}).

Definition push {A} (x : A) (l : list A) : list A := l ++ [x].

(** The body of [entries.forEach] *)
Definition parseAndFile (testConceptUuids : list ConceptUuid)
    (testConceptNameMap : JsObject string) (metaInfomation : JsObject ObsMetaInfo)
    (st : Reconstruction) (entry : Fhir.Observation) : Reconstruction :=
  if decide (getEntryConceptClassUuid entry ∈ testConceptUuids) then
    let '(arrays, memberRefs, entry) :=
      parseSingleObsData testConceptNameMap metaInfomation
        (arrays st) (memberRefs st) entry in
    match members entry with
    | Some _ =>
        {| arrays := arrays; memberRefs := memberRefs;
           obsByClass := obj_update (push entry) (obsByClass st) (conceptClass entry);
           singeEntries := singeEntries st |}
    | None =>
        {| arrays := arrays; memberRefs := memberRefs;
           obsByClass := obsByClass st;
           singeEntries := push entry (singeEntries st) |}
    end
  else st.

(** The body of [singeEntries.forEach] *)
Definition placeSingle (st : Reconstruction) (entry : StoredObs) : Reconstruction :=
  match memberRefs st !! id entry with
  | Some (h, i) =>
      {| arrays := alter (λ a, Array_set a i entry) h (arrays st);
         memberRefs := memberRefs st;
         obsByClass := obsByClass st;
         singeEntries := singeEntries st |}
  | None =>
      {| arrays := arrays st;
         memberRefs := memberRefs st;
         obsByClass := obj_update (push entry) (obsByClass st) (conceptClass entry);
         singeEntries := singeEntries st |}
  end.

(** Reading an entry out of the store once nothing is mutated any more. *)
Definition readout (arrays : list (list (option StoredObs))) (e : StoredObs)
  : ObsRecord :=
  {| id := id e;
     effectiveDateTime := effectiveDateTime e;
     hasMember := hasMember e;
     conceptClass := conceptClass e;
     meta := meta e;
     value := value e;
     name := name e;
     members := h ← members e; arrays !! h |}.

Definition isTestConcept (x : Concept.ConceptRecord) : Prop :=
  ConceptClass.name (Concept.conceptClass x) = "Test"
  ∨ ConceptClass.name (Concept.conceptClass x) = "LabSet".

Global Instance isTestConcept_dec x : Decision (isTestConcept x).
Proof. unfold isTestConcept. apply _. Defined.

Record Process := {
  patientResultsDataCache : JsObject CacheRecord;
  conceptCache : gmap string (option Concept.ConceptRecord)
}.

Section LoadPatientData.

(** [Date.parse] on the timestamps of the remote API (well-formed, so never
    NaN). *)
Variable Date_parse : string → Z.

Definition byDateDescending {M} (ent1 ent2 : Obs M) : Z :=
  (Date_parse (effectiveDateTime ent2) - Date_parse (effectiveDateTime ent1))%Z.

(** The callback of the final [map]; destructuring the result of a failed
    [find] throws. *)
Definition sortedGroup (testConcepts : list Concept.ConceptRecord)
    (arrays : list (list (option StoredObs))) (x : string * list StoredObs)
  : option (string * PatientGroup) :=
  c ← List.find (λ c, bool_decide (Concept.uuid c = x.1)) testConcepts;
  Some (Concept.display c,
        {| entries := readout arrays <$> Array_sort byDateDescending x.2;
           type := ConceptClass.display (Concept.conceptClass c);
           group_uuid := x.1 |}).

(** The passes of [loadPatientData] between the concept fetch and the cache
    update. *)
Definition passes (testConcepts : list Concept.ConceptRecord)
    (entries : list Fhir.Observation) : Reconstruction :=
  let testConceptUuids := Concept.uuid <$> testConcepts in
  let testConceptNameMap :=
    Object_fromEntries ((λ c, (Concept.uuid c, Concept.display c)) <$> testConcepts) in
  let obsByClass :=
    Object_fromEntries ((λ x, (x, [])) <$> testConceptUuids) in
  let metaInfomation := extractMetaInformation testConcepts in
  let st :=
    foldl (parseAndFile testConceptUuids testConceptNameMap metaInfomation)
          {| arrays := []; memberRefs := ∅; obsByClass := obsByClass;
             singeEntries := [] |}
          entries in
  foldl placeSingle st (singeEntries st).

Definition reconstruct (allConcepts : list Concept.ConceptRecord)
    (entries : list Fhir.Observation) : option PatientData :=
  let testConcepts := filter isTestConcept allConcepts in
  let st := passes testConcepts entries in
  sorted ← mapM (sortedGroup testConcepts (arrays st))
              (filter (λ x, length x.2 ≠ 0) (Object_entries (obsByClass st)));
  Some (Object_fromEntries sorted).

Definition loadPatientData (w : World) (now : Z) (st : Process)
    (patientUuid : string) : Process * option PatientData :=
  match getUserDataFromCache w (patientResultsDataCache st) patientUuid with
  | None => (st, None)
  | Some (Some cachedPatientData) => (st, Some cachedPatientData)
  | Some None =>
      match (loadObsEntries w patientUuid).2 with
      | None => (st, None)
      | Some entries =>
          let '(conceptCache, allConcepts) :=
            loadPresentConcepts w (conceptCache st) entries in
          let st := {| patientResultsDataCache := patientResultsDataCache st;
                       conceptCache := conceptCache |} in
          match allConcepts with
          | None => (st, None)
          | Some allConcepts =>
              match reconstruct allConcepts entries with
              | None => (st, None)
              | Some sortedObs =>
                  match head entries with
                  | None => (st, None)
                  | Some newest =>
                      ({| patientResultsDataCache :=
                            addUserDataToCache (patientResultsDataCache st) now
                              patientUuid sortedObs (Fhir.id newest);
                          conceptCache := conceptCache |},
                       Some sortedObs)
                  end
              end
          end
      end
  end.

End LoadPatientData.

(** ** The pivot of useTimelineData *)

(** The property key a [name] is used as. *)
Definition rowKey (name : option string) : string := default "undefined" name.

(** [rows] is a plain object, so [rows[name]] also finds what every object
    inherits from [Object.prototype]: its methods, the accessor [__proto__]
    (which yields [Object.prototype] itself), and whatever indexed
    properties have been written onto [Object.prototype]. *)
Definition Object_prototype_methods : list string :=
  [ "constructor"; "hasOwnProperty"; "isPrototypeOf"; "propertyIsEnumerable";
    "toLocaleString"; "toString"; "valueOf";
    "__defineGetter__"; "__defineSetter__"; "__lookupGetter__";
    "__lookupSetter__" ].

Definition inherited (key : string) : Prop :=
  key = "__proto__" ∨ key ∈ Object_prototype_methods.

Global Instance inherited_dec key : Decision (inherited key).
Proof. unfold inherited. apply _. Defined.

(** The state of one run of [parseEntries]: the object [rows], and the
    indexed properties that the run has written onto [Object.prototype]
    (none when it starts). *)
Record Pivot := {
  pivot_rows : JsObject (list (option StoredObs));
  Object_prototype : gmap nat StoredObs
}.

(** What [rows[name]] evaluates to. *)
Inductive RowTarget :=
  | ownRow (row : list (option StoredObs))
  | prototypeMethod
  | prototypeItself
  | prototypeEntry (member : StoredObs)
  | noRow.

Definition lookupRow (st : Pivot) (name : string) : RowTarget :=
  match obj_get (pivot_rows st) name with
  | Some row => ownRow row
  | None =>
      if decide (name = "__proto__") then prototypeItself
      else if decide (name ∈ Object_prototype_methods) then prototypeMethod
      else match canonicalNumber name
                 ≫= λ n, Object_prototype st !! N.to_nat n with
           | Some member => prototypeEntry member
           | None => noRow
           end
  end.

(** [const row = rows[name] || (rows[name] = []); row[index] = member]: an
    inherited value is truthy, so no row is made and the write lands on the
    inherited object.  A write onto a method or onto an entry leaves
    nothing that the pivot reads. *)
Definition addMember (index : nat) (st : Pivot) (member : StoredObs) : Pivot :=
  let name := rowKey (name member) in
  match lookupRow st name with
  | ownRow row =>
      {| pivot_rows := obj_set (pivot_rows st) name (Array_set row index member);
         Object_prototype := Object_prototype st |}
  | noRow =>
      {| pivot_rows := obj_set (pivot_rows st) name (Array_set [] index member);
         Object_prototype := Object_prototype st |}
  | prototypeItself =>
      {| pivot_rows := pivot_rows st;
         Object_prototype := <[index := member]> (Object_prototype st) |}
  | prototypeMethod | prototypeEntry _ => st
  end.

(** Reading position [i] of an array: the element, or for a hole what
    [Object.prototype] holds at [i]. *)
Definition elementAt (prototype : gmap nat StoredObs) (i : nat)
    (slot : option StoredObs) : option StoredObs :=
  match slot with
  | Some member => Some member
  | None => prototype !! i
  end.

(** One step of [members.forEach]: a position is visited when the array, or
    its prototype chain, has a property there. *)
Definition visitMember (index : nat) (st : Pivot) (ks : nat * option StoredObs)
  : Pivot :=
  match elementAt (Object_prototype st) ks.1 ks.2 with
  | Some member => addMember index st member
  | None => st
  end.

(** [entries.forEach((entry, index) => ...)] from [index] on; an entry
    without [members] throws. *)
Fixpoint parseEntries_from (index : nat) (st : Pivot) (entries : list ObsRecord)
  : option Pivot :=
  match entries with
  | [] => Some st
  | entry :: entries =>
      members ← members entry;
      parseEntries_from (S index)
        (foldl (visitMember index) st (imap pair members)) entries
  end.

(** [[...value]]: same length, every position read. *)
Definition spread (prototype : gmap nat StoredObs) (value : list (option StoredObs))
  : list (option StoredObs) :=
  imap (elementAt prototype) value.

Definition parseEntries (entries : list ObsRecord)
  : option (JsObject (list (option StoredObs))) :=
  st ← parseEntries_from 0 {| pivot_rows := []; Object_prototype := ∅ |} entries;
  Some (foldl (λ rows kv, obj_set rows kv.1 (spread (Object_prototype st) kv.2))
              (pivot_rows st) (Object_ownEntries (pivot_rows st))).

(** ** The pivot when [Object.prototype] is left alone *)

(** No member is named [__proto__], the one name under which the pivot
    writes onto [Object.prototype]. *)
Definition prototypeUntouched (entries : list ObsRecord) : Prop :=
  Forall (λ entry : ObsRecord,
            Forall (λ slot : option StoredObs,
                      match slot with
                      | Some member => rowKey (name member) ≠ "__proto__"
                      | None => True
                      end)
                   (default [] (members entry)))
         entries.

Global Instance prototypeUntouched_dec entries :
  Decision (prototypeUntouched entries).
Proof.
  unfold prototypeUntouched. apply Forall_dec. intros entry.
  apply Forall_dec. intros [member|]; apply _.
Defined.

(** The members that reach a row: those whose name is not inherited. *)
Definition plainSlot (slot : option StoredObs) : option StoredObs :=
  member ← slot;
  if decide (inherited (rowKey (name member))) then None else Some member.

Definition withoutInherited (entry : ObsRecord) : ObsRecord :=
  {| id := id entry;
     effectiveDateTime := effectiveDateTime entry;
     hasMember := hasMember entry;
     conceptClass := conceptClass entry;
     meta := meta entry;
     value := value entry;
     name := name entry;
     members := fmap (M:=list) plainSlot <$> members entry |}.

(** The rows that are made: never under an inherited name, and never longer
    than the entries visited. *)
Definition rowsWithin (n : nat) (rows : JsObject (list (option StoredObs))) : Prop :=
  Forall (λ kv, ¬ inherited kv.1 ∧ length kv.2 ≤ n) rows.

(** Then the rows are what the body of [members.forEach] makes of those
    members on the rows alone, holes skipped. *)
Definition addOwnMember (index : nat) (rows : JsObject (list (option StoredObs)))
    (slot : option StoredObs) : JsObject (list (option StoredObs)) :=
  match slot with
  | None => rows
  | Some member =>
      let row := default [] (obj_get rows (rowKey (name member))) in
      obj_set rows (rowKey (name member)) (Array_set row index member)
  end.

Fixpoint ownRows_from (index : nat) (rows : JsObject (list (option StoredObs)))
    (entries : list ObsRecord) : option (JsObject (list (option StoredObs))) :=
  match entries with
  | [] => Some rows
  | entry :: entries =>
      members ← members entry;
      ownRows_from (S index) (foldl (addOwnMember index) rows members) entries
  end.

Definition ownRows (entries : list ObsRecord)
  : option (JsObject (list (option StoredObs))) :=
  rows ← ownRows_from 0 [] entries;
  Some (foldl (λ rows kv, obj_set rows kv.1 kv.2) rows (Object_entries rows)).

(** ** The checks of the range assessor as the specification lists them *)

Inductive side := above | below.

(** A value matches a bound when the bound is a number and the value lies
    strictly beyond it. *)
Definition matches (value : Q) (b : bound) (s : side) : Prop :=
  match b, s with
  | num q, above => (q < value)%Q
  | num q, below => (value < q)%Q
  | _, _ => False
  end.

Global Instance matches_dec value b s : Decision (matches value b s).
Proof.
  destruct b as [| |q], s; simpl; try (right; tauto).
  - destruct (Qlt_le_dec q value); [left|right]; [done|by apply Qle_not_lt].
  - destruct (Qlt_le_dec value q); [left|right]; [done|by apply Qle_not_lt].
Defined.

Definition spec_checks (meta : ObsMetaInfo)
  : list (bound * side * OBSERVATION_INTERPRETATION) :=
  [ (hiAbsolute meta, above, OFF_SCALE_HIGH);
    (hiCritical meta, above, CRITICALLY_HIGH);
    (hiNormal meta, above, HIGH);
    (lowAbsolute meta, below, OFF_SCALE_LOW);
    (lowCritical meta, below, CRITICALLY_LOW);
    (lowNormal meta, below, LOW) ].

(** First matching bound wins; no match is normal. *)
Fixpoint spec_first_match (value : Q)
    (checks : list (bound * side * OBSERVATION_INTERPRETATION))
  : OBSERVATION_INTERPRETATION :=
  match checks with
  | [] => NORMAL
  | (b, s, category) :: rest =>
      if decide (matches value b s) then category
      else spec_first_match value rest
  end.

(** ** Orders and relations used in the statements *)


Definition strictlyNewestFirst (Date_parse : string → Z) {M} (a b : Obs M) : Prop :=
  (Date_parse (effectiveDateTime b) < Date_parse (effectiveDateTime a))%Z.

Global Instance strictlyNewestFirst_dec Date_parse {M} (a b : Obs M) :
  Decision (strictlyNewestFirst Date_parse a b).
Proof. unfold strictlyNewestFirst. apply _. Defined.



(** ** The two passes in closed form *)

(** The references an entry declares. *)
Definition declared (e : Fhir.Observation) : list Reference :=
  default [] (Fhir.hasMember e).

Definition isPanel (e : Fhir.Observation) : Prop := is_Some (Fhir.hasMember e).

Global Instance isPanel_dec e : Decision (isPanel e).
Proof. unfold isPanel. apply _. Defined.

(** The entries that pass the data-quality filter, panels and single tests. *)
Definition recognizedPanels (uuids : list ConceptUuid)
    (es : list Fhir.Observation) : list Fhir.Observation :=
  filter (λ e, getEntryConceptClassUuid e ∈ uuids ∧ isPanel e) es.

Definition recognizedSingles (uuids : list ConceptUuid)
    (es : list Fhir.Observation) : list Fhir.Observation :=
  filter (λ e, getEntryConceptClassUuid e ∈ uuids ∧ ¬ isPanel e) es.

(** The entry [parseSingleObsData] makes of [e] when the next free handle is
    [h]. *)
Definition entryOf (testConceptNameMap : JsObject string)
    (metaInfomation : JsObject ObsMetaInfo) (h : handle) (e : Fhir.Observation)
  : StoredObs :=
  {| id := Fhir.id e;
     effectiveDateTime := Fhir.effectiveDateTime e;
     hasMember := Fhir.hasMember e;
     conceptClass := getEntryConceptClassUuid e;
     meta := match Fhir.hasMember e with
             | Some _ => None
             | None => obj_get metaInfomation (getEntryConceptClassUuid e)
             end;
     value := Fhir.value <$> Fhir.valueQuantity e;
     name := obj_get testConceptNameMap (getEntryConceptClassUuid e);
     members := match Fhir.hasMember e with Some _ => Some h | None => None end |}.

(** The back-pointers registered for the array [h] of a panel, in order, and
    those of a list of panels whose arrays are allocated in order. *)
Definition slotsOf (h : handle) (refs : list Reference)
  : list (string * (nat * nat)) :=
  imap (λ i memb, (memberKey memb, (h, i))) refs.

Definition allSlots (panels : list Fhir.Observation)
  : list (string * (nat * nat)) :=
  concat (imap (λ h p, slotsOf h (declared p)) panels).

Definition register (refs : gmap string (nat * nat))
    (slot : string * (nat * nat)) : gmap string (nat * nat) :=
  <[slot.1 := slot.2]> refs.

(** [obsByClass[entry.conceptClass].push(entry)] *)
Definition file (o : JsObject (list StoredObs)) (e : StoredObs)
  : JsObject (list StoredObs) :=
  obj_update (push e) o (conceptClass e).

(** The single entries placed into slot [i] of array [h], in order. *)
Definition placedAt (refs : gmap string (nat * nat)) (h i : nat)
    (singles : list StoredObs) : list StoredObs :=
  filter (λ s, refs !! id s = Some (h, i)) singles.

(** The single entries that are nobody's member. *)
Definition standalone (refs : gmap string (nat * nat))
    (singles : list StoredObs) : list StoredObs :=
  filter (λ s, refs !! id s = None) singles.

(** Slot [i] of array [h] after the single entries [singles] have been
    placed: the last entry placed there, or what the slot held before. *)
Definition slotAfter (refs : gmap string (nat * nat)) (singles : list StoredObs)
    (h i : nat) (before : option StoredObs) : option StoredObs :=
  from_option Some before (last (placedAt refs h i singles)).

(** What [passes] computes from the test concepts alone. *)
Definition uuidsOf (testConcepts : list Concept.ConceptRecord) : list ConceptUuid :=
  Concept.uuid <$> testConcepts.

Definition nameMapOf (testConcepts : list Concept.ConceptRecord) : JsObject string :=
  Object_fromEntries ((λ c, (Concept.uuid c, Concept.display c)) <$> testConcepts).

Definition emptyGroups (testConcepts : list Concept.ConceptRecord)
  : JsObject (list StoredObs) :=
  Object_fromEntries ((λ x, (x, [])) <$> uuidsOf testConcepts).

(** The recognized panels in allocation order, the single entries as parsed,
    the back-pointer table and everything filed into [obsByClass]. *)
Definition panelsOf (testConcepts : list Concept.ConceptRecord)
    (es : list Fhir.Observation) : list Fhir.Observation :=
  recognizedPanels (uuidsOf testConcepts) es.

Definition singlesOf (testConcepts : list Concept.ConceptRecord)
    (es : list Fhir.Observation) : list StoredObs :=
  entryOf (nameMapOf testConcepts) (extractMetaInformation testConcepts) 0
    <$> recognizedSingles (uuidsOf testConcepts) es.

Definition refsOf (testConcepts : list Concept.ConceptRecord)
    (es : list Fhir.Observation) : gmap string (nat * nat) :=
  foldl register ∅ (allSlots (panelsOf testConcepts es)).

Definition filedOf (testConcepts : list Concept.ConceptRecord)
    (es : list Fhir.Observation) : list StoredObs :=
  imap (entryOf (nameMapOf testConcepts) (extractMetaInformation testConcepts))
       (panelsOf testConcepts es)
  ++ standalone (refsOf testConcepts es) (singlesOf testConcepts es).

(** ** The published entries in terms of the raw ones *)







(** ** The pivot in closed form *)

(** The member of the array [members] that ends up in the row [key]: the
    last one of that name, holes skipped. *)
Definition lastNamed (key : string) (members : list (option StoredObs))
  : option StoredObs :=
  last (filter (λ m, rowKey (name m) = key) (omap (λ slot, slot) members)).

(** The column of [key], one slot per entry. *)
Definition column (key : string) (entries : list ObsRecord)
  : list (option StoredObs) :=
  (λ entry, lastNamed key (default [] (members entry))) <$> entries.

(** A list without its trailing absent slots. *)
Fixpoint trim {A} (l : list (option A)) : list (option A) :=
  match l with
  | [] => []
  | x :: l' =>
      match trim l', x with
      | [], None => []
      | t, _ => x :: t
      end
  end.

(** The row [row] after [row[n] = m], for a row of length at most [n + 1]. *)
Definition setAt {A} (n : nat) (m : A) (row : list (option A)) : list (option A) :=
  take n row ++ replicate (n - length row) None ++ [Some m].

(** A row exists only when it holds something. *)
Definition nonempty {A} (l : list A) : option (list A) :=
  match l with [] => None | _ => Some l end.

(** ** Sample data *)

Definition sample_meta : ObsMetaInfo :=
  {| hiAbsolute := num 100; hiCritical := num 90; hiNormal := num 80;
     lowAbsolute := null; lowCritical := undefined; lowNormal := num 10;
     units := Some "mg/dL"; datatype := "Numeric";
     range := Some (num 10, num 80) |}.

Definition sample_obs (id code time : string) (hasMember : option (list Reference))
    (value : option Q) : Fhir.Observation :=
  {| Fhir.id := id; Fhir.code := code; Fhir.effectiveDateTime := time;
     Fhir.hasMember := hasMember;
     Fhir.valueQuantity := (λ v, {| Fhir.value := v |}) <$> value |}.

Definition sample_Date_parse (s : string) : Z :=
  if decide (s = "2024-01-05T08:00") then 1704441600000
  else if decide (s = "2024-01-05T14:30") then 1704465000000
  else 0.

Definition sample_concept (uuid display class : string) : Concept.ConceptRecord :=
  {| Concept.uuid := uuid; Concept.display := display;
     Concept.conceptClass :=
       {| ConceptClass.name := class; ConceptClass.display := class |};
     Concept.hiAbsolute := null; Concept.hiCritical := null;
     Concept.hiNormal := num 17;
     Concept.lowAbsolute := null; Concept.lowCritical := null;
     Concept.lowNormal := num 12;
     Concept.units := Some "g/dL"; Concept.datatype := "Numeric" |}.


Definition sample_hgb : Fhir.Observation :=
  sample_obs "b" "singleCat" "2024-01-05T08:00" None (Some 7.2%Q).




(** a second panel that declares [b] as well *)
Definition sample_cbc_2 : Fhir.Observation :=
  sample_obs "a2" "panelCat" "2024-01-05T14:30"
    (Some [ {| reference := "Observation/b" |} ]) None.




(** The entry list of the group "CBC" when its member test is a concept
    whose display name is "constructor". *)
Definition constructor_timeline : list ObsRecord :=
  default []
    (entries <$> (reconstruct sample_Date_parse
                    [ sample_concept "panelCat" "CBC" "LabSet";
                      sample_concept "singleCat" "constructor" "Test" ]
                    [sample_cbc_2; sample_hgb]
                  ≫= λ data, obj_get data "CBC")).

(** A remote whose newest observation is [newest] and that knows no concept. *)
Definition probe_world (newest : string) : World :=
  {| fetchObservation := λ _,
       Some {| Fhir.total := 1;
               Fhir.entry :=
                 Some [ {| Fhir.resource :=
                             sample_obs newest "hgb" "2024-01-05T08:00" None None |} ] |};
     fetchConcept := λ _, None |}.

(** A remote that holds [data] for every patient, pages it faithfully and
    resolves the concepts [concepts]. *)
Definition paging_world (data : list Fhir.Observation)
    (concepts : list Concept.ConceptRecord) : World :=
  {| fetchObservation := λ r,
       Some {| Fhir.total := length data;
               Fhir.entry :=
                 Some (Fhir.Build_BundleEntry
                         <$> take (count r) (drop (getpagesoffset r) data)) |};
     fetchConcept := λ u,
       List.find (λ c, bool_decide (Concept.uuid c = u)) concepts |}.

Definition sample_cache : JsObject CacheRecord :=
  [("patient-1", ([], 1000%Z, "obs-123"))].

Definition fresh_process : Process :=
  {| patientResultsDataCache := []; conceptCache := ∅ |}.

(** ** The pages of a faithful remote *)

(** The observations on the page at [offset]. *)
Definition page (data : list Fhir.Observation) (offset : nat)
  : list Fhir.Observation :=
  take PAGE_SIZE (drop (offset * PAGE_SIZE) data).

(** The searchset bundle a faithful remote answers with. *)
Definition bundle (data : list Fhir.Observation) (offset : nat) : Fhir.Bundle :=
  {| Fhir.total := length data;
     Fhir.entry := Some (Fhir.Build_BundleEntry <$> page data offset) |}.

(** The requests for the first [n] pages of the patient's observations. *)
Definition firstPages (patientUuid : string) (n : nat) : list Request :=
  pageRequest (patientUuid, PAGE_SIZE) <$> seq 0 n.


(** A remote that rejects every request. *)
Definition offline_world : World :=
  {| fetchObservation := λ _, None; fetchConcept := λ _, None |}.

(** A remote whose bundles announce [total] observations and carry no
    [entry] field. *)
Definition bare_world (total : nat) : World :=
  {| fetchObservation := λ _, Some {| Fhir.total := total; Fhir.entry := None |};
     fetchConcept := λ _, None |}.



(** The promise [conceptCache[conceptUuid] || fetch(conceptUuid)]. *)
Definition resolveConcept (w : World)
    (conceptCache : gmap string (option Concept.ConceptRecord))
    (conceptUuid : ConceptUuid) : option Concept.ConceptRecord :=
  default (fetchConcept w conceptUuid) (conceptCache !! conceptUuid).

(** A concept with all six bounds. *)
Definition full_meta : ObsMetaInfo :=
  {| hiAbsolute := num 30; hiCritical := num 25; hiNormal := num 17;
     lowAbsolute := num 2; lowCritical := num 8; lowNormal := num 12;
     units := Some "g/dL"; datatype := "Numeric";
     range := Some (num 12, num 17) |}.

(** The data-quality filter of [loadPatientData]: the entry's concept is a
    test concept. *)
Definition recognized (allConcepts : list Concept.ConceptRecord)
    (e : Fhir.Observation) : Prop :=
  getEntryConceptClassUuid e ∈ uuidsOf (filter isTestConcept allConcepts).

Global Instance recognized_dec allConcepts e : Decision (recognized allConcepts e).
Proof. unfold recognized. apply _. Defined.

(** A process that has cached the (empty) aggregate of patient-1. *)
Definition warm_process : Process :=
  {| patientResultsDataCache := sample_cache; conceptCache := ∅ |}.

(** ** The time header of useTimelineData *)

(** [s.split(/[...]/)] for a class of one-character separators. *)
Fixpoint String_split_on (isSep : Ascii.ascii → bool) (s : string) : list string :=
  match s with
  | EmptyString => [EmptyString]
  | String c s' =>
      if isSep c then EmptyString :: String_split_on isSep s'
      else match String_split_on isSep s' with
           | [] => [String c EmptyString]
           | word :: words => String c word :: words
           end
  end.

(** The class [[-,T,:]]: hyphen, comma, T and colon. *)
Definition isTimeSeparator (c : Ascii.ascii) : bool :=
  bool_decide (c ∈ ["-"; ","; "T"; ":"]%char).

Module YearColumn.
Record t := { year : string; size : nat }.
End YearColumn.

Module DayColumn.
Record t := { year : string; day : string; size : nat }.
End DayColumn.

Record ParsedTime := {
  yearColumns : list YearColumn.t;
  dayColumns : list DayColumn.t;
  timeColumns : list string;
  sortedTimes : list string
}.

(** [const column = columns.find(found); if (column) column.size++;
    else columns.push(fresh)] *)
Fixpoint findOrPush {C} (found : C → bool) (increment : C → C) (fresh : C)
    (columns : list C) : list C :=
  match columns with
  | [] => [fresh]
  | column :: columns' =>
      if found column then increment column :: columns'
      else column :: findOrPush found increment fresh columns'
  end.

(** A destructured piece inside a template literal: a missing one prints as
    [undefined]. *)
Definition piece (pieces : list string) (i : nat) : string :=
  nth i pieces "undefined".

(** [year]: the first piece, which [split] always yields. *)
Definition yearOf (datetime : string) : string :=
  hd "" (String_split_on isTimeSeparator datetime).

(** [`${month}/${day}`] *)
Definition dateOf (datetime : string) : string :=
  let pieces := String_split_on isTimeSeparator datetime in
  piece pieces 1 +:+ "/" +:+ piece pieces 2.

(** [`${hour}:${minutes}`] *)
Definition timeOf (datetime : string) : string :=
  let pieces := String_split_on isTimeSeparator datetime in
  piece pieces 3 +:+ ":" +:+ piece pieces 4.

(** The body of [sortedTimes.forEach]. *)
Definition parseTime_step
    (acc : list YearColumn.t * list DayColumn.t * list string)
    (datetime : string) : list YearColumn.t * list DayColumn.t * list string :=
  let '(yearColumns, dayColumns, timeColumns) := acc in
  let year := yearOf datetime in
  let date := dateOf datetime in
  let time := timeOf datetime in
  (findOrPush (λ c, bool_decide (year = YearColumn.year c))
     (λ c, {| YearColumn.year := YearColumn.year c;
              YearColumn.size := S (YearColumn.size c) |})
     {| YearColumn.year := year; YearColumn.size := 1 |} yearColumns,
   findOrPush (λ c, bool_decide (date = DayColumn.day c ∧ year = DayColumn.year c))
     (λ c, {| DayColumn.year := DayColumn.year c; DayColumn.day := DayColumn.day c;
              DayColumn.size := S (DayColumn.size c) |})
     {| DayColumn.year := year; DayColumn.day := date; DayColumn.size := 1 |}
     dayColumns,
   timeColumns ++ [time]).

Definition parseTime (sortedTimes : list string) : ParsedTime :=
  let '(yearColumns, dayColumns, timeColumns) :=
    foldl parseTime_step ([], [], []) sortedTimes in
  {| yearColumns := yearColumns; dayColumns := dayColumns;
     timeColumns := timeColumns; sortedTimes := sortedTimes |}.

(** ** useTimelineData *)

Inductive TimelineError :=
  | upstream (error : string)
  | panel_data_missing.

Record TimelineData := {
  parsedTime : option ParsedTime;
  rowData : option (JsObject (list (option StoredObs)));
  panelName : option string;
  timeline_loaded : bool;
  timeline_error : option TimelineError
}.

(** The body of [useMemo], given what [usePatientResultsData] returned;
    [None] when [parseEntries] throws. *)
Definition useTimelineData (sortedObs : option PatientData) (loaded : bool)
    (error : option string) (panelUuid : string) : option TimelineData :=
  match sortedObs, loaded, error with
  | Some sortedObs, true, None =>
      match List.find (λ kv, bool_decide (group_uuid kv.2 = panelUuid))
                      (Object_entries sortedObs) with
      | None =>
          Some {| parsedTime := None; rowData := None; panelName := None;
                  timeline_loaded := loaded;
                  timeline_error := Some panel_data_missing |}
      | Some (panelName, panelData) =>
          let entries := entries panelData in
          let times := effectiveDateTime <$> entries in
          rowData ← parseEntries entries;
          Some {| parsedTime := Some (parseTime times); rowData := Some rowData;
                  panelName := Some panelName;
                  timeline_loaded := true; timeline_error := None |}
      end
  | _, _, _ =>
      Some {| parsedTime := None; rowData := None; panelName := None;
              timeline_loaded := loaded; timeline_error := upstream <$> error |}
  end.

(** ** Tallies: the columns of a header as (key, size) pairs *)

Definition tallyStep {K} `{EqDecision K} (k : K) (columns : list (K * nat))
  : list (K * nat) :=
  findOrPush (λ c, bool_decide (k = c.1)) (λ c, (c.1, S c.2)) (k, 1) columns.

Definition tally {K} `{EqDecision K} (l : list K) : list (K * nat) :=
  foldl (λ columns k, tallyStep k columns) [] l.

(** The cells a header of spanning columns covers, left to right. *)
Definition spanned {K} (columns : list (K * nat)) : list K :=
  columns ≫= λ c, replicate c.2 c.1.

(** Equal keys are adjacent. *)
Fixpoint contiguous {K} (l : list K) : Prop :=
  match l with
  | [] => True
  | x :: l' => (x ∈ l' → head l' = Some x) ∧ contiguous l'
  end.

Global Instance contiguous_dec {K} `{EqDecision K} (l : list K) :
  Decision (contiguous l).
Proof. induction l; cbn [contiguous]; apply _. Defined.

Definition yearSpan (c : YearColumn.t) : string * nat :=
  (YearColumn.year c, YearColumn.size c).

Definition daySpan (c : DayColumn.t) : (string * string) * nat :=
  ((DayColumn.year c, DayColumn.day c), DayColumn.size c).

(** The year and the day a timestamp falls into. *)
Definition dayOf (datetime : string) : string * string :=
  (yearOf datetime, dateOf datetime).

Definition sample_times : list string :=
  ["2024-01-05T14:30"; "2024-01-05T08:00"; "2023-12-31T23:59"].

(** How often [k] occurs in [l]. *)
Definition occurrences {K} `{EqDecision K} (k : K) (l : list K) : nat :=
  length (filter (λ x, x = k) l).

(** A string without [/]. *)
Definition noSlash (s : string) : Prop :=
  "/"%char ∉ String.list_ascii_of_string s.

Global Instance noSlash_dec s : Decision (noSlash s).
Proof. unfold noSlash. apply _. Defined.

(** A string without any character of the separator class of [parseTime]. *)
Definition noTimeSeparator (s : string) : Prop :=
  Forall (λ c, isTimeSeparator c = false) (String.list_ascii_of_string s).

Global Instance noTimeSeparator_dec s : Decision (noTimeSeparator s).
Proof. unfold noTimeSeparator. apply _. Defined.

(** The timestamp [year-month-dayThour:minutes] followed by [rest]. *)
Definition timestamp (year month day hour minutes rest : string) : string :=
  year +:+ String "-"%char
    (month +:+ String "-"%char
       (day +:+ String "T"%char
          (hour +:+ String ":"%char (minutes +:+ rest)))).




(** A bound that is a number. *)
Definition isNumber (b : bound) : Prop :=
  match b with num _ => True | _ => False end.

Global Instance isNumber_dec b : Decision (isNumber b).
Proof. destruct b; cbn; apply _. Defined.

(** ** Remotes that serve more than the total implies *)

(** The remote answers every request of the prefetch window, announces
    [length data] observations on the first page, and serves [data] on the
    pages that the total implies.  What the other pages of the window hold
    (entries beyond the total, no [entry] field at all) is left open. *)
Definition servesWithinTotal (w : World) (patientUuid : string)
    (data : list Fhir.Observation) : Prop :=
  (∀ r, r ∈ prefetch_requests patientUuid → is_Some (fetchObservation w r))
  ∧ (∃ first,
       fetchObservation w (pageRequest (patientUuid, PAGE_SIZE) 0) = Some first
       ∧ Fhir.total first = length data)
  ∧ ∀ offset res,
      offset < Math_ceil_div (length data) PAGE_SIZE →
      fetchObservation w (pageRequest (patientUuid, PAGE_SIZE) offset) = Some res →
      Fhir.entry res = Some (Fhir.Build_BundleEntry <$> page data offset).

(** A remote that ignores the page offset: every request is answered with
    the first page of [data]. *)
Definition repeating_world (data : list Fhir.Observation) : World :=
  {| fetchObservation := λ r,
       Some {| Fhir.total := length data;
               Fhir.entry :=
                 Some (Fhir.Build_BundleEntry <$> take (count r) data) |};
     fetchConcept := λ _, None |}.


(** * Properties *)

(** ** Range assessor *)

Lemma Qltb_lt x y : Qltb x y = true ↔ (x < y)%Q.
Proof.
  unfold Qltb. rewrite negb_true_iff, <- not_true_iff_false, Qle_bool_iff.
  split; [apply Qnot_le_lt | apply Qlt_not_le].
Qed.

Lemma guarded_gt value b :
  exist [b] && js_gt value b = bool_decide (matches value b above).
Proof.
  destruct b as [| |q]; cbn [exist js_gt andb];
    try (symmetry; apply bool_decide_eq_false_2; by intros []).
  apply eq_true_iff_eq. by rewrite Qltb_lt, bool_decide_eq_true.
Qed.

Lemma guarded_lt value b :
  exist [b] && js_lt value b = bool_decide (matches value b below).
Proof.
  destruct b as [| |q]; cbn [exist js_lt andb];
    try (symmetry; apply bool_decide_eq_false_2; by intros []).
  apply eq_true_iff_eq. by rewrite Qltb_lt, bool_decide_eq_true.
Qed.

Lemma assessValue_first_match meta value :
  assessValue meta value = spec_first_match value (spec_checks meta).
Proof.
  unfold assessValue. rewrite !guarded_gt, !guarded_lt. simpl.
  repeat (case_bool_decide; case_decide; try done).
Qed.

Lemma spec_first_match_inv value checks category :
  spec_first_match value checks = category →
  category = NORMAL
  ∨ ∃ b s, (b, s, category) ∈ checks ∧ matches value b s.
Proof.
  induction checks as [|[[b s] c] rest IH]; simpl; [by left; auto|].
  case_decide.
  - intros <-. right. exists b, s. split; [left|done].
  - intros [->|(b' & s' & ? & ?)]%IH; [by left|].
    right. exists b', s'. split; [by right|done].
Qed.

Lemma spec_checks_category meta b s b' s' category :
  (b, s, category) ∈ spec_checks meta →
  (b', s', category) ∈ spec_checks meta →
  category ≠ NORMAL ∧ b = b' ∧ s = s'.
Proof.
  unfold spec_checks. rewrite !elem_of_cons, !elem_of_nil.
  intros H1 H2.
  repeat (destruct H1 as [H1|H1]; [simplify_eq|]); try done;
    repeat (destruct H2 as [H2|H2]; [simplify_eq|]); done.
Qed.

Lemma matches_not_equal value q s : (value == q)%Q → ¬ matches value (num q) s.
Proof.
  intros Heq. destruct s; simpl; rewrite Heq; apply Qlt_irrefl.
Qed.

(** C3. [assessValue] checks hiAbsolute, hiCritical, hiNormal, lowAbsolute,
    lowCritical, lowNormal in this order, with strict comparison, skipping a
    bound that is null or undefined; the first matching bound gives the
    category and no match gives NORMAL.  A value equal to a bound is never
    put into the category of that bound, and with hiAbsolute = 100,
    hiCritical = 90 and hiNormal = 80 the value 95 is CRITICALLY_HIGH. *)
Theorem C3_assessValue_order_and_strictness (meta : ObsMetaInfo) (value : Q) :
  assessValue meta value = spec_first_match value (spec_checks meta)
  ∧ (∀ b s category q,
       (b, s, category) ∈ spec_checks meta → b = num q → (value == q)%Q →
       assessValue meta value ≠ category)
  ∧ (hiAbsolute meta = num 100 → hiCritical meta = num 90 →
     hiNormal meta = num 80 → assessValue meta 95 = CRITICALLY_HIGH).
Proof.
  split; [apply assessValue_first_match|split].
  - intros b s category q Hin -> Heq Hres.
    rewrite assessValue_first_match in Hres.
    apply spec_first_match_inv in Hres as [->|(b' & s' & Hin' & Hm)].
    + by destruct (spec_checks_category _ _ _ _ _ _ Hin Hin).
    + destruct (spec_checks_category _ _ _ _ _ _ Hin Hin') as (_ & <- & <-).
      by apply (matches_not_equal value q s).
  - intros H1 H2 H3. unfold assessValue. rewrite H1, H2. reflexivity.
Qed.

(** ** Objects and arrays *)

Lemma obj_get_set {V} (o : JsObject V) k v k' :
  obj_get (obj_set o k v) k' = if decide (k = k') then Some v else obj_get o k'.
Proof.
  induction o as [|[k0 v0] o IH]; simpl.
  - by repeat case_decide.
  - repeat (case_decide; simpl; simplify_eq); try done.
Qed.

Lemma obj_set_keys {V} (o : JsObject V) k v :
  (obj_set o k v).*1 = if decide (k ∈ o.*1) then o.*1 else o.*1 ++ [k].
Proof.
  induction o as [|[k0 v0] o IH]; cbn [obj_set fmap list_fmap fst].
  - case_decide; [set_solver|done].
  - destruct (decide (k0 = k)) as [->|Hne]; cbn [fmap list_fmap fst].
    + by rewrite decide_True by set_solver.
    + rewrite IH. destruct (decide (k ∈ o.*1)).
      * by rewrite decide_True by set_solver.
      * by rewrite decide_False by set_solver.
Qed.

Lemma obj_set_fresh {V} (o : JsObject V) k v :
  k ∉ o.*1 → obj_set o k v = o ++ [(k, v)].
Proof.
  induction o as [|[k0 v0] o IH]; simpl; [done|].
  intros Hk. case_decide; [set_solver|]. rewrite IH; [done|set_solver].
Qed.

Lemma obj_set_NoDup {V} (o : JsObject V) k v :
  NoDup o.*1 → NoDup (obj_set o k v).*1.
Proof.
  intros Hnd. rewrite obj_set_keys. case_decide; [done|].
  apply NoDup_app. split_and!; [done|set_solver|apply NoDup_singleton].
Qed.

Lemma obj_get_Some_elem {V} (o : JsObject V) k v :
  obj_get o k = Some v → (k, v) ∈ o.
Proof.
  induction o as [|[k0 v0] o IH]; simpl; [done|].
  case_decide; [intros [= <-]; subst; left | right; auto].
Qed.

Lemma obj_get_None {V} (o : JsObject V) k : obj_get o k = None ↔ k ∉ o.*1.
Proof.
  induction o as [|[k0 v0] o IH]; simpl; [set_solver|].
  case_decide; [set_solver|]. rewrite IH. set_solver.
Qed.

Lemma obj_get_elem_NoDup {V} (o : JsObject V) k v :
  NoDup o.*1 → (k, v) ∈ o → obj_get o k = Some v.
Proof.
  induction o as [|[k0 v0] o IH]; simpl; [by intros _ ?%elem_of_nil|].
  intros [Hk Hnd]%NoDup_cons [[= -> ->]|Hin]%elem_of_cons.
  - by rewrite decide_True.
  - rewrite decide_False; [auto|].
    intros ->. apply Hk, list_elem_of_fmap. by exists (k, v).
Qed.

Lemma Object_fromEntries_acc {V} (acc kvs : JsObject V) :
  NoDup (acc ++ kvs).*1 →
  foldl (λ o kv, obj_set o kv.1 kv.2) acc kvs = acc ++ kvs.
Proof.
  revert acc. induction kvs as [|[k v] kvs IH]; intros acc Hnd; simpl.
  - by rewrite app_nil_r.
  - rewrite obj_set_fresh.
    + rewrite IH; rewrite <- (assoc_L (++)); done.
    + rewrite fmap_app in Hnd. apply NoDup_app in Hnd as (_ & Hnd & _).
      intros Hin. apply (Hnd k Hin). simpl. left.
Qed.

Lemma Object_fromEntries_NoDup {V} (kvs : JsObject V) :
  NoDup kvs.*1 → Object_fromEntries kvs = kvs.
Proof. intros. by apply (Object_fromEntries_acc []). Qed.

(** ** Sorting *)

Lemma sort_insert_perm {A} (compare : A → A → Z) x l :
  sort_insert compare x l ≡ₚ x :: l.
Proof.
  induction l as [|y l IH]; simpl; [done|].
  case_decide; [done|]. by rewrite IH, Permutation_swap.
Qed.

Lemma Array_sort_perm {A} (compare : A → A → Z) l : Array_sort compare l ≡ₚ l.
Proof.
  induction l as [|x l IH]; simpl; [done|].
  by rewrite sort_insert_perm, IH.
Qed.

Section sort_by_key.
Context {A : Type} (key : A → Z).

(** the comparator [(a, b) => key(b) - key(a)] *)
Let descending (a b : A) : Z := (key b - key a)%Z.
Let ordered (a b : A) : Prop := (key b ≤ key a)%Z.

Lemma sort_insert_ordered x l :
  StronglySorted ordered l → StronglySorted ordered (sort_insert descending x l).
Proof.
  induction 1 as [|y l Hl IH Hy]; simpl; [repeat constructor|].
  case_decide as Hxy.
  - constructor; [by constructor|].
    constructor; [unfold ordered, descending in *; lia|].
    eapply Forall_impl; [done|]. unfold ordered, descending in *.
    intros; simpl in *; lia.
  - constructor; [done|].
    rewrite sort_insert_perm. constructor; [|done].
    unfold ordered, descending in *. lia.
Qed.

Lemma Array_sort_ordered l : StronglySorted ordered (Array_sort descending l).
Proof.
  induction l as [|x l IH]; simpl; [constructor|].
  by apply sort_insert_ordered.
Qed.
End sort_by_key.

Lemma C3_witness :
  assessValue sample_meta 95 = CRITICALLY_HIGH
  ∧ assessValue sample_meta 90 ≠ CRITICALLY_HIGH.
Proof.
  split.
  - by apply (C3_assessValue_order_and_strictness sample_meta 95).
  - apply (C3_assessValue_order_and_strictness sample_meta 90)
      with (b := num 90) (s := above) (q := 90%Q); [|done..].
    right; left.
Defined.

(** ** The enumeration order of an object *)

Lemma Object_ownEntries_perm {V} (o : JsObject V) : Object_ownEntries o ≡ₚ o.
Proof.
  unfold Object_ownEntries. rewrite Array_sort_perm.
  assert (snd <$> omap (λ kv : string * V, n ← arrayIndex kv.1; Some (n, kv)) o
          = filter (λ kv, ¬ arrayIndex kv.1 = None) o) as ->.
  { induction o as [|[k v] o IH]; [done|].
    cbn [omap list_omap fst]. rewrite filter_cons. cbn [fst].
    destruct (arrayIndex k) as [n|]; cbn [mbind option_bind].
    - rewrite decide_True by done. rewrite fmap_cons. cbn [snd]. by f_equal.
    - rewrite decide_False by (by intros []). done. }
  rewrite (comm (++)). apply filter_app_complement.
Qed.

Lemma Object_ownEntries_length {V} (o : JsObject V) :
  length (Object_ownEntries o) = length o.
Proof. by rewrite Object_ownEntries_perm. Qed.




(** ** Freshness cache *)



Lemma addUserDataToCache_small cache now patientUuid data indicator :
  length (obj_set cache patientUuid (data, now, indicator)) ≤ 3 →
  addUserDataToCache cache now patientUuid data indicator
  = obj_set cache patientUuid (data, now, indicator).
Proof.
  intros Hlen. unfold addUserDataToCache.
  by rewrite Object_ownEntries_length, decide_False by lia.
Qed.

Lemma addUserDataToCache_large cache now patientUuid data indicator :
  NoDup cache.*1 →
  3 < length (obj_set cache patientUuid (data, now, indicator)) →
  addUserDataToCache cache now patientUuid data indicator
  = take 3 (Array_sort (λ a b, (created b - created a)%Z)
              (Object_ownEntries
                 (obj_set cache patientUuid (data, now, indicator)))).
Proof.
  intros Hnd Hlen. unfold addUserDataToCache.
  rewrite Object_ownEntries_length, decide_True by lia.
  apply Object_fromEntries_NoDup. rewrite fmap_take.
  eapply sublist_NoDup; [|apply sublist_take].
  rewrite Array_sort_perm, Object_ownEntries_perm. by apply obj_set_NoDup.
Qed.



(** ** Page fetcher *)

Lemma retrieveFromIterator_spec it n :
  retrieveFromIterator it n
  = (pageRequest (queries it) <$> seq (offsetCounter it) n,
     {| queries := queries it; offsetCounter := offsetCounter it + n |}).
Proof.
  revert it. induction n as [|n IH]; intros [q c]; simpl.
  - by rewrite Nat.add_0_r.
  - rewrite IH. simpl. by rewrite Nat.add_succ_r.
Qed.

Lemma mapM_fmap_total {A B} (f : A → option B) (g : A → B) l :
  (∀ x, x ∈ l → f x = Some (g x)) → mapM f l = Some (g <$> l).
Proof.
  intros Hf. apply mapM_Some, Forall2_fmap_r, Forall_Forall2_diag, Forall_forall.
  auto.
Qed.

Lemma Math_ceil_div_ge a b : 0 < b → a ≤ Math_ceil_div a b * b.
Proof.
  intros Hb. unfold Math_ceil_div.
  pose proof (Nat.div_mod_eq (a + (b - 1)) b) as Hdm.
  pose proof (Nat.mod_upper_bound (a + (b - 1)) b). nia.
Qed.

Lemma Math_ceil_div_le a b n : 0 < b → a ≤ n * b → Math_ceil_div a b ≤ n.
Proof.
  intros Hb Ha. unfold Math_ceil_div.
  apply Nat.lt_succ_r, Nat.Div0.div_lt_upper_bound. nia.
Qed.

(** Cutting a list into [n] pages of [size] and concatenating them gives the
    list back when the pages cover it. *)
Lemma concat_pages {A} (size n : nat) (data : list A) :
  length data ≤ n * size →
  concat ((λ k, take size (drop (k * size) data)) <$> seq 0 n) = data.
Proof.
  revert data. induction n as [|n IH]; intros data Hlen.
  - destruct data; [done|simpl in Hlen; lia].
  - cbn [seq fmap list_fmap concat]. rewrite drop_0.
    rewrite <- fmap_S_seq, <- list_fmap_compose.
    rewrite <- (take_drop size data) at 2. f_equal.
    rewrite <- (IH (drop size data)) by (rewrite length_drop; lia).
    f_equal. apply list_fmap_ext. intros _ k _. simpl.
    by rewrite drop_drop.
Qed.

Lemma loadObsEntries_prefetch_window (w : World) (patientUuid : string)
    (responses : list Fhir.Bundle) (first : Fhir.Bundle) :
  Promise_all (fetchObservation w <$> prefetch_requests patientUuid) = Some responses →
  head responses = Some first →
  Fhir.total first ≤ CHUNK_PREFETCH_COUNT * PAGE_SIZE →
  loadObsEntries w patientUuid
  = (prefetch_requests patientUuid,
     pages ← mapM (λ res, fmap Fhir.resource <$> Fhir.entry res)
               (take (Math_ceil_div (Fhir.total first) PAGE_SIZE) responses);
     Some (concat pages)).
Proof.
  intros Hall Hfirst Htotal. unfold loadObsEntries.
  rewrite retrieveFromIterator_spec. cbn [fhirObservationRequests queries offsetCounter].
  fold (prefetch_requests patientUuid). rewrite Hall, Hfirst.
  by rewrite decide_False by lia.
Qed.

(** The answers to the prefetch window, when none is rejected. *)
Lemma prefetch_responses (w : World) (patientUuid : string) :
  (∀ r, r ∈ prefetch_requests patientUuid → is_Some (fetchObservation w r)) →
  ∃ responses,
    Promise_all (fetchObservation w <$> prefetch_requests patientUuid)
    = Some responses
    ∧ ∀ i, i < CHUNK_PREFETCH_COUNT →
        responses !! i
        = fetchObservation w (pageRequest (patientUuid, PAGE_SIZE) i).
Proof.
  intros Hans.
  destruct (Promise_all (fetchObservation w <$> prefetch_requests patientUuid))
    as [responses|] eqn:Hall.
  - exists responses. split; [done|]. intros i Hi.
    unfold Promise_all in Hall.
    apply mapM_Some, Forall2_fmap_l in Hall.
    assert (prefetch_requests patientUuid !! i
            = Some (pageRequest (patientUuid, PAGE_SIZE) i)) as Hreq.
    { unfold prefetch_requests. rewrite list_lookup_fmap, lookup_seq_lt by done.
      done. }
    destruct (Forall2_lookup_l _ _ _ _ _ Hall Hreq) as (res & -> & Hres).
    by symmetry.
  - exfalso. apply eq_None_not_Some in Hall. apply Hall.
    apply mapM_is_Some. by rewrite Forall_fmap, Forall_forall.
Qed.

(** C1 (amended). For a patient with at most 600 observations,
    [loadObsEntries] issues exactly the 6 requests of the prefetch window,
    whatever the total.  Of the 6 bundles received it keeps exactly the
    first ceil(total/100), and the flattened result is the list of all
    [total] observations in (page, within-page) order, whatever the bundles
    past the total hold: entries the total does not imply are dropped, and
    a bundle without [entry] there does no harm. *)
Theorem C1_prefetch_window_then_truncation (w : World) (patientUuid : string)
    (data : list Fhir.Observation) :
  servesWithinTotal w patientUuid data →
  length data ≤ CHUNK_PREFETCH_COUNT * PAGE_SIZE →
  ∃ responses pages,
    Promise_all (fetchObservation w <$> prefetch_requests patientUuid)
    = Some responses
    ∧ length responses = CHUNK_PREFETCH_COUNT
    ∧ mapM (λ res : Fhir.Bundle, fmap (M:=list) Fhir.resource <$> Fhir.entry res)
           (take (Math_ceil_div (length data) PAGE_SIZE) responses)
      = Some pages
    ∧ pages = page data <$> seq 0 (Math_ceil_div (length data) PAGE_SIZE)
    ∧ loadObsEntries w patientUuid
      = (prefetch_requests patientUuid, Some (concat pages))
    ∧ length (loadObsEntries w patientUuid).1 = 6
    ∧ length pages = Math_ceil_div (length data) PAGE_SIZE
    ∧ concat pages = data.
Proof.
  intros (Hans & (first & Hfirst & Htotal) & Hserved) Hlen.
  set (kept := Math_ceil_div (length data) PAGE_SIZE).
  assert (kept ≤ CHUNK_PREFETCH_COUNT) as Hkept
    by (apply Math_ceil_div_le; [unfold PAGE_SIZE; lia|done]).
  destruct (prefetch_responses w patientUuid Hans) as (responses & Hall & Hlook).
  assert (length responses = CHUNK_PREFETCH_COUNT) as Hsix.
  { unfold Promise_all in Hall. apply length_mapM in Hall.
    rewrite <- Hall. unfold prefetch_requests.
    by rewrite !length_fmap, length_seq. }
  assert (mapM (λ res : Fhir.Bundle,
                  fmap (M:=list) Fhir.resource <$> Fhir.entry res)
               (take kept responses)
          = Some (page data <$> seq 0 kept)) as Hpages.
  { apply mapM_Some, Forall2_same_length_lookup_2.
    - rewrite length_take, length_fmap, length_seq. lia.
    - intros i res pg Hres Hpg.
      apply list_lookup_fmap_Some in Hpg as (k & -> & Hk).
      apply lookup_seq in Hk as [-> Hi]. cbn [plus] in *.
      rewrite lookup_take_lt, Hlook in Hres by lia.
      rewrite (Hserved i res Hi Hres). cbn. f_equal.
      rewrite <- list_fmap_compose. apply list_fmap_id. }
  assert (concat (page data <$> seq 0 kept) = data) as Hconcat.
  { apply concat_pages, Math_ceil_div_ge. unfold PAGE_SIZE; lia. }
  assert (loadObsEntries w patientUuid
          = (prefetch_requests patientUuid,
             Some (concat (page data <$> seq 0 kept)))) as Hload.
  { rewrite (loadObsEntries_prefetch_window w patientUuid responses first Hall).
    - rewrite Htotal. fold kept. by rewrite Hpages.
    - rewrite head_lookup, Hlook; [done|unfold CHUNK_PREFETCH_COUNT; lia].
    - by rewrite Htotal. }
  exists responses, (page data <$> seq 0 kept).
  split_and!; [done..| | |done].
  - by rewrite Hload.
  - by rewrite length_fmap, length_seq.
Qed.

Lemma paging_world_paginates data concepts patientUuid :
  paginates (paging_world data concepts) patientUuid data.
Proof. by intros offset. Qed.

Lemma C1_witness :
  Forall (λ r, (fetchObservation (repeating_world [sample_hgb]) r ≫= Fhir.entry)
               = Some [ {| Fhir.resource := sample_hgb |} ])
         (prefetch_requests "patient-1")
  ∧ length (loadObsEntries (repeating_world [sample_hgb]) "patient-1").1 = 6
  ∧ (loadObsEntries (repeating_world [sample_hgb]) "patient-1").2
    = Some [sample_hgb].
Proof.
  destruct (C1_prefetch_window_then_truncation
              (repeating_world [sample_hgb]) "patient-1" [sample_hgb])
    as (responses & pages & _ & _ & _ & _ & Hload & Hsix & _ & Hall).
  - split_and!.
    + intros r _. by eexists.
    + by eexists.
    + intros offset res Hoffset Hres.
      assert (offset = 0) as -> by (vm_compute in Hoffset; lia).
      by injection Hres as <-.
  - vm_compute. lia.
  - split_and!; [by repeat constructor|exact Hsix|].
    rewrite Hload. cbn [snd]. exact (f_equal Some Hall).
Defined.

(** C1, as stated, fails: a patient with a single observation (total 1, so
    ceil(total/100) = 1) still gets the 6 requests of the prefetch window. *)
Lemma C1_counterexample :
  Fhir.total <$> fetchObservation (paging_world [sample_hgb] [])
                   (pageRequest ("patient-1", PAGE_SIZE) 0) = Some 1
  ∧ Math_ceil_div 1 PAGE_SIZE = 1
  ∧ length (loadObsEntries (paging_world [sample_hgb] []) "patient-1").1 = 6
  ∧ length (loadObsEntries (paging_world [sample_hgb] []) "patient-1").1
    ≠ Math_ceil_div 1 PAGE_SIZE.
Proof. split_and!; [reflexivity..|]. vm_compute. lia. Qed.

(** ** Loading with an empty result *)

Lemma uniq_nil : uniq [] = [].
Proof. reflexivity. Qed.

(** C9. When the cache misses and the fetch yields no raw entry,
    [loadPatientData] does not return an aggregate: reading [entries[0].id]
    faults, and the process state, the cache included, is as before. *)
Theorem C9_empty_fetch_faults (Date_parse : string → Z) (w : World) (now : Z)
    (st : Process) (patientUuid : string) :
  getUserDataFromCache w (patientResultsDataCache st) patientUuid = Some None →
  (loadObsEntries w patientUuid).2 = Some [] →
  loadPatientData Date_parse w now st patientUuid = (st, None).
Proof.
  intros Hmiss Hempty. unfold loadPatientData. rewrite Hmiss, Hempty.
  unfold loadPresentConcepts. cbn [fmap list_fmap]. rewrite uniq_nil.
  cbn [foldl Promise_all mapM mret option_ret head].
  destruct st as [cache concepts]; cbn [patientResultsDataCache conceptCache].
  by destruct (reconstruct Date_parse [] []).
Qed.

Lemma C9_witness :
  loadPatientData sample_Date_parse (paging_world [] []) 1000 fresh_process
    "patient-1"
  = (fresh_process, None).
Proof.
  apply C9_empty_fetch_faults; reflexivity.
Defined.

(** ** Reconstruction: the groups and the final sort *)


Lemma obj_set_elem {V} (o : JsObject V) k v kv :
  kv ∈ obj_set o k v → kv ∈ o ∨ kv = (k, v).
Proof.
  induction o as [|[k0 v0] o IH]; simpl.
  - intros ->%list_elem_of_singleton. by right.
  - case_decide; intros [->|Hin]%elem_of_cons.
    + by right.
    + left. by right.
    + left. left.
    + destruct (IH Hin); [left; by right|by right].
Qed.


Lemma Object_fromEntries_keys {V} (kvs : JsObject V) k :
  k ∈ (Object_fromEntries kvs).*1 ↔ k ∈ kvs.*1.
Proof.
  unfold Object_fromEntries.
  enough (∀ acc, k ∈ (foldl (λ o kv, obj_set o kv.1 kv.2) acc kvs).*1
                 ↔ k ∈ acc.*1 ∨ k ∈ kvs.*1) as Hgen.
  { rewrite Hgen. set_solver. }
  induction kvs as [|[k' v] kvs IH]; intros acc; simpl; [set_solver|].
  rewrite IH, obj_set_keys. case_decide; set_solver.
Qed.







Section final_sort.
Variable Date_parse : string → Z.


End final_sort.





(** ** Reconstruction: the first pass in closed form *)

Lemma registerMembers_slots h refs hasMember :
  registerMembers h refs hasMember = foldl register refs (slotsOf h hasMember).
Proof.
  unfold registerMembers, slotsOf.
  assert (imap (λ i memb, (memberKey memb, (h, i))) hasMember
          = (λ im : nat * Reference, (memberKey im.2, (h, im.1)))
              <$> imap (λ i memb, (i, memb)) hasMember) as ->.
  { rewrite fmap_imap. by apply imap_ext. }
  by rewrite foldl_fmap.
Qed.

Lemma parseSingleObsData_closed nm mi arrays refs e :
  parseSingleObsData nm mi arrays refs e
  = (match Fhir.hasMember e with
     | Some hasMember => arrays ++ [new_Array (length hasMember)]
     | None => arrays
     end,
     foldl register refs (slotsOf (length arrays) (declared e)),
     entryOf nm mi (length arrays) e).
Proof.
  unfold parseSingleObsData, entryOf, declared.
  destruct (Fhir.hasMember e) as [hasMember|]; simpl; [|done].
  by rewrite registerMembers_slots.
Qed.

Lemma entryOf_single nm mi h e :
  Fhir.hasMember e = None → entryOf nm mi h e = entryOf nm mi 0 e.
Proof. unfold entryOf. by intros ->. Qed.

Lemma pass1_closed uuids nm mi o0 es :
  foldl (parseAndFile uuids nm mi)
        {| arrays := []; memberRefs := ∅; obsByClass := o0; singeEntries := [] |} es
  = {| arrays := (λ p, new_Array (length (declared p))) <$> recognizedPanels uuids es;
       memberRefs := foldl register ∅ (allSlots (recognizedPanels uuids es));
       obsByClass := foldl file o0 (imap (entryOf nm mi) (recognizedPanels uuids es));
       singeEntries := entryOf nm mi 0 <$> recognizedSingles uuids es |}.
Proof.
  induction es as [|e es IH] using rev_ind; [done|].
  rewrite foldl_snoc, IH. unfold parseAndFile, recognizedPanels, recognizedSingles.
  rewrite !filter_app, !filter_cons, !filter_nil.
  cbn [arrays memberRefs obsByClass singeEntries].
  case_decide as Hrec.
  - rewrite parseSingleObsData_closed. rewrite length_fmap.
    destruct (Fhir.hasMember e) as [hasMember|] eqn:Hm.
    + rewrite decide_True by (split; [done|by eexists]).
      rewrite decide_False by (intros [_ []]; by eexists).
      cbn [entryOf members]. rewrite Hm. rewrite app_nil_r.
      f_equal.
      * rewrite fmap_app. cbn. unfold declared. by rewrite Hm.
      * unfold allSlots. rewrite imap_app, concat_app, foldl_app.
        cbn [imap concat]. by rewrite Nat.add_0_r, app_nil_r.
      * rewrite imap_app, foldl_app. cbn [imap foldl]. rewrite Nat.add_0_r.
        reflexivity.
    + rewrite decide_False by (intros [_ [? ?]]; congruence).
      rewrite decide_True by (split; [done|intros [? ?]; congruence]).
      cbn [entryOf members]. rewrite Hm, app_nil_r. unfold declared. rewrite Hm.
      cbn. f_equal. unfold push. rewrite fmap_app. cbn.
      by rewrite (entryOf_single _ _ _ _ Hm).
  - rewrite !decide_False by tauto. by rewrite !app_nil_r.
Qed.

(** ** Reconstruction: the back-pointer table *)


Lemma register_lookup_elem slots refs k v :
  foldl register refs slots !! k = Some v → refs !! k = Some v ∨ (k, v) ∈ slots.
Proof.
  revert refs. induction slots as [|[k' v'] slots IH]; intros refs; [by left|].
  cbn [foldl]. intros [Hl|Hin]%IH; [|right; by right].
  unfold register in Hl. cbn [fst snd] in Hl.
  destruct (decide (k' = k)) as [->|Hne].
  - rewrite lookup_insert_eq in Hl. injection Hl as ->. right; left.
  - rewrite lookup_insert_ne in Hl by done. by left.
Qed.




Lemma elem_of_concat {A} (x : A) (ls : list (list A)) :
  x ∈ concat ls ↔ ∃ l, l ∈ ls ∧ x ∈ l.
Proof.
  rewrite list_elem_of_In, in_concat. setoid_rewrite list_elem_of_In. done.
Qed.

Lemma elem_of_slotsOf k h h' i refs :
  (k, (h', i)) ∈ slotsOf h refs ↔
  h' = h ∧ ∃ memb, refs !! i = Some memb ∧ memberKey memb = k.
Proof.
  unfold slotsOf. rewrite elem_of_lookup_imap. split.
  - intros (j & memb & [= -> -> ->] & Hj). eauto.
  - intros (-> & memb & Hi & <-). eauto.
Qed.

Lemma elem_of_allSlots k h i panels :
  (k, (h, i)) ∈ allSlots panels ↔
  ∃ p memb, panels !! h = Some p ∧ declared p !! i = Some memb ∧ memberKey memb = k.
Proof.
  unfold allSlots. rewrite elem_of_concat. split.
  - intros (l & (h' & p & -> & Hp)%elem_of_lookup_imap
              & (-> & memb & Hi & Hk)%elem_of_slotsOf).
    eauto.
  - intros (p & memb & Hp & Hi & Hk). exists (slotsOf h (declared p)). split.
    + by apply (elem_of_lookup_imap_2 (λ h p, slotsOf h (declared p))).
    + apply elem_of_slotsOf. eauto.
Qed.

(** ** Reconstruction: the second pass in closed form *)

Lemma placedAt_snoc refs h i l s :
  placedAt refs h i (l ++ [s])
  = placedAt refs h i l ++ (if decide (refs !! id s = Some (h, i)) then [s] else []).
Proof.
  unfold placedAt. by rewrite filter_app, filter_cons, filter_nil.
Qed.

Lemma slotAfter_snoc refs l s h i before :
  slotAfter refs (l ++ [s]) h i before
  = if decide (refs !! id s = Some (h, i)) then Some s
    else slotAfter refs l h i before.
Proof.
  unfold slotAfter. rewrite placedAt_snoc. case_decide.
  - by rewrite last_snoc.
  - by rewrite app_nil_r.
Qed.

Lemma standalone_snoc refs l s :
  standalone refs (l ++ [s])
  = standalone refs l ++ (if decide (refs !! id s = None) then [s] else []).
Proof.
  unfold standalone. by rewrite filter_app, filter_cons, filter_nil.
Qed.

Lemma pass2_closed st l :
  (∀ k h i, memberRefs st !! k = Some (h, i) →
            ∃ a, arrays st !! h = Some a ∧ i < length a) →
  foldl placeSingle st l
  = {| arrays := imap (λ h a, imap (slotAfter (memberRefs st) l h) a) (arrays st);
       memberRefs := memberRefs st;
       obsByClass := foldl file (obsByClass st) (standalone (memberRefs st) l);
       singeEntries := singeEntries st |}.
Proof.
  intros Hwf. induction l as [|s l IH] using rev_ind.
  - destruct st as [A R O S]. cbn. f_equal.
    apply list_eq. intros h. rewrite list_lookup_imap.
    destruct (A !! h) as [a|]; [|done]. cbn. f_equal.
    apply list_eq. intros i. rewrite list_lookup_imap.
    by destruct (a !! i).
  - rewrite foldl_snoc, IH. unfold placeSingle.
    cbn [arrays memberRefs obsByClass singeEntries].
    rewrite standalone_snoc.
    destruct (memberRefs st !! id s) as [[h i]|] eqn:Hs.
    + rewrite decide_False by done. rewrite app_nil_r. f_equal.
      destruct (Hwf _ _ _ Hs) as (a & Ha & Hi).
      apply list_eq. intros h'. rewrite list_lookup_alter, !list_lookup_imap.
      case_decide as Hh.
      * subst h'. rewrite Ha. cbn. f_equal.
        unfold Array_set. rewrite decide_True by (by rewrite length_imap).
        apply list_eq. intros i'.
        rewrite list_lookup_insert, !list_lookup_imap, length_imap.
        destruct (a !! i') as [x|] eqn:Hx; cbn.
        -- rewrite slotAfter_snoc, Hs. case_decide as Hi'.
           ++ destruct Hi' as [-> _]. by rewrite decide_True.
           ++ rewrite decide_False; [done|].
              intros [= ->]. apply Hi'. split; [done|lia].
        -- apply lookup_ge_None in Hx. rewrite decide_False by lia. done.
      * destruct (arrays st !! h') as [a'|]; [|done]. cbn. f_equal.
        apply imap_ext. intros i' x _. rewrite slotAfter_snoc, Hs.
        rewrite decide_False; [done|congruence].
    + rewrite decide_True by done. rewrite foldl_app. cbn [foldl]. unfold file at 1.
      f_equal. apply imap_ext. intros h a _. apply imap_ext. intros i x _.
      rewrite slotAfter_snoc, Hs. by rewrite decide_False.
Qed.

(** ** Reconstruction: both passes *)

Lemma refsOf_elem tcs es k h i :
  refsOf tcs es !! k = Some (h, i) →
  ∃ p memb, panelsOf tcs es !! h = Some p ∧ declared p !! i = Some memb
            ∧ memberKey memb = k.
Proof.
  unfold refsOf. intros [Hl|Hin]%register_lookup_elem; [done|].
  by apply elem_of_allSlots.
Qed.

Lemma passes_closed tcs es :
  passes tcs es
  = {| arrays :=
         imap (λ h a, imap (slotAfter (refsOf tcs es) (singlesOf tcs es) h) a)
              ((λ p, new_Array (length (declared p))) <$> panelsOf tcs es);
       memberRefs := refsOf tcs es;
       obsByClass := foldl file (emptyGroups tcs) (filedOf tcs es);
       singeEntries := singlesOf tcs es |}.
Proof.
  unfold passes. rewrite pass1_closed. cbn [singeEntries].
  rewrite pass2_closed.
  - cbn [arrays memberRefs obsByClass singeEntries]. unfold filedOf.
    by rewrite foldl_app.
  - cbn [arrays memberRefs]. intros k h i (p & memb & Hp & Hi & _)%refsOf_elem.
    exists (new_Array (length (declared p))). split.
    + rewrite list_lookup_fmap. unfold panelsOf, uuidsOf in Hp. by rewrite Hp.
    + unfold new_Array. rewrite length_replicate. by apply lookup_lt_Some in Hi.
Qed.





(** ** Reconstruction: what is filed and what is placed *)





Section aggregate.
Variable Date_parse : string → Z.


End aggregate.




(** ** Reconstruction: the published entries in terms of the raw ones *)













(** ** Reconstruction: permuting the raw entries *)

















Section permuted.
Variable Date_parse : string → Z.









End permuted.




(** ** Reconstruction: permuting the concepts *)














Section permuted_concepts.
Variable Date_parse : string → Z.




End permuted_concepts.





(** ** Timeline pivot *)

Lemma trim_snoc_Some {A} (l : list (option A)) m :
  trim (l ++ [Some m]) = l ++ [Some m].
Proof.
  induction l as [|x l IH]; [done|]. cbn [app trim]. rewrite IH.
  by destruct (l ++ [Some m]) eqn:E; [destruct l; discriminate E|].
Qed.

Lemma trim_snoc_None {A} (l : list (option A)) : trim (l ++ [None]) = trim l.
Proof.
  induction l as [|x l IH]; [done|]. cbn [app trim]. by rewrite IH.
Qed.

Lemma trim_pad {A} (l : list (option A)) :
  l = trim l ++ replicate (length l - length (trim l)) None.
Proof.
  induction l as [|x l IH]; [done|]. cbn [trim].
  destruct (trim l) as [|y t] eqn:Et.
  - destruct x as [a|].
    + cbn [app length] in *. rewrite Nat.sub_0_r in IH.
      replace (S (length l) - 1) with (length l) by lia. by rewrite <- IH.
    + cbn [app length] in *. rewrite Nat.sub_0_r in *. cbn. by rewrite <- IH.
  - cbn [app length] in *. 
    replace (S (length l) - S (S (length t))) with (length l - S (length t)) by lia.
    by rewrite <- IH.
Qed.

Lemma trim_length {A} (l : list (option A)) : length (trim l) ≤ length l.
Proof.
  rewrite (trim_pad l) at 2. rewrite length_app. lia.
Qed.

Lemma trim_last {A} (l : list (option A)) :
  trim l ≠ [] → ∃ m, last (trim l) = Some (Some m).
Proof.
  induction l as [|x l IH]; [done|]. cbn [trim].
  destruct (trim l) as [|y t] eqn:Et.
  - destruct x as [a|]; [|done]. intros _. by exists a.
  - intros _. destruct IH as [m Hm]; [done|]. exists m. by rewrite last_cons, Hm.
Qed.

Lemma trim_nil_inv {A} (l : list (option A)) :
  trim l = [] → l = replicate (length l) None.
Proof.
  intros Ht. rewrite (trim_pad l) at 1. rewrite Ht. cbn. by rewrite Nat.sub_0_r.
Qed.

Lemma Array_set_setAt {A} (row : list (option A)) n m :
  length row ≤ S n → Array_set row n m = setAt n m row.
Proof.
  intros Hlen. unfold Array_set, setAt. case_decide as Hn.
  - assert (length row = S n) as Hrow by lia.
    replace (n - length row) with 0 by lia. cbn [replicate app].
    destruct (lookup_lt_is_Some_2 row n) as [x Hx]; [lia|].
    rewrite <- (take_drop_middle row n x Hx) at 1.
    rewrite insert_app_r_alt by (rewrite length_take; lia).
    rewrite length_take, Nat.min_l by lia. rewrite Nat.sub_diag. cbn.
    f_equal. f_equal. apply nil_length_inv. rewrite length_drop. lia.
  - by rewrite take_ge by lia.
Qed.

Lemma setAt_setAt {A} (row : list (option A)) n m m' :
  setAt n m' (setAt n m row) = setAt n m' row.
Proof.
  unfold setAt. rewrite !(assoc_L (++) (take n row)).
  set (base := take n row ++ replicate (n - length row) None).
  assert (length base = n) as Hlen
    by (unfold base; rewrite length_app, length_take, length_replicate; lia).
  rewrite take_app_length' by done.
  rewrite length_app, Hlen. cbn [length].
  by replace (n - (n + 1)) with 0 by lia.
Qed.

Lemma setAt_length {A} (row : list (option A)) n m :
  length row ≤ S n → length (setAt n m row) = S n.
Proof.
  intros Hlen. unfold setAt.
  rewrite !length_app, length_take, length_replicate. cbn. lia.
Qed.

Lemma lastNamed_snoc k ms slot :
  lastNamed k (ms ++ [slot])
  = match slot with
    | Some m => if decide (rowKey (name m) = k) then Some m else lastNamed k ms
    | None => lastNamed k ms
    end.
Proof.
  unfold lastNamed. rewrite omap_app, filter_app. destruct slot as [m|].
  - assert (omap (λ slot : option StoredObs, slot) [Some m] = [m]) as -> by done.
    rewrite filter_cons, filter_nil. case_decide.
    + by rewrite last_snoc.
    + by rewrite app_nil_r.
  - assert (omap (λ slot : option StoredObs, slot) [None] = []) as -> by done.
    by rewrite filter_nil, app_nil_r.
Qed.

Lemma addOwnMember_fold n k ms (rows : JsObject (list (option StoredObs))) :
  (∀ row, obj_get rows k = Some row → length row ≤ n) →
  obj_get (foldl (addOwnMember n) rows ms) k
  = match lastNamed k ms with
    | None => obj_get rows k
    | Some m => Some (setAt n m (default [] (obj_get rows k)))
    end.
Proof.
  intros Hlen. induction ms as [|slot ms IH] using rev_ind; [done|].
  rewrite foldl_snoc, lastNamed_snoc. unfold addOwnMember at 1.
  destruct slot as [m|]; [|done].
  rewrite obj_get_set. case_decide as Hk; [|done]. subst k. f_equal.
  rewrite IH. destruct (lastNamed (rowKey (name m)) ms) as [m0|].
  - cbn [from_option Datatypes.id]. rewrite Array_set_setAt, setAt_setAt; [done|].
    rewrite setAt_length; [done|].
    destruct (obj_get rows (rowKey (name m))) as [row|] eqn:Hrow;
      cbn [from_option Datatypes.id length]; [|lia].
    specialize (Hlen row eq_refl). lia.
  - apply Array_set_setAt.
    destruct (obj_get rows (rowKey (name m))) as [row|] eqn:Hrow;
      cbn [from_option Datatypes.id length]; [|lia].
    specialize (Hlen row eq_refl). lia.
Qed.

Lemma addOwnMember_fold_NoDup n ms (rows : JsObject (list (option StoredObs))) :
  NoDup rows.*1 → NoDup (foldl (addOwnMember n) rows ms).*1.
Proof.
  revert rows. induction ms as [|slot ms IH]; intros rows Hnd; [done|].
  cbn [foldl]. apply IH. unfold addOwnMember. destruct slot; [|done].
  by apply obj_set_NoDup.
Qed.

Lemma nonempty_length {A} (l row : list A) :
  nonempty l = Some row → row = l ∧ l ≠ [].
Proof. destruct l; [done|]. by intros [= <-]. Qed.

Lemma default_nonempty {A} (l : list A) : default [] (nonempty l) = l.
Proof. by destruct l. Qed.

Lemma ownRows_from_rows entries prefix rows rows' :
  (∀ k, obj_get rows k = nonempty (trim (column k prefix))) →
  ownRows_from (length prefix) rows entries = Some rows' →
  ∀ k, obj_get rows' k = nonempty (trim (column k (prefix ++ entries))).
Proof.
  revert prefix rows. induction entries as [|entry entries IH];
    intros prefix rows Hinv Hrun k.
  - rewrite app_nil_r. injection Hrun as <-. apply Hinv.
  - cbn [ownRows_from] in Hrun.
    destruct (members entry) as [ms|] eqn:Hm; [|done]. cbn in Hrun.
    replace (S (length prefix)) with (length (prefix ++ [entry])) in Hrun
      by (rewrite length_app; cbn; lia).
    rewrite (cons_middle entry), (assoc_L (++)).
    revert k.
    apply (IH (prefix ++ [entry]) (foldl (addOwnMember (length prefix)) rows ms));
      [|done].
    intros k. unfold column. rewrite fmap_app. cbn [fmap list_fmap].
    rewrite Hm. cbn [from_option Datatypes.id]. fold (column k prefix).
    rewrite addOwnMember_fold.
    + rewrite Hinv. destruct (lastNamed k ms) as [m|].
      * rewrite trim_snoc_Some, default_nonempty. unfold setAt.
        rewrite take_ge by (etrans; [apply trim_length|]; 
                            unfold column; by rewrite length_fmap).
        rewrite (assoc_L (++)).
        replace (length prefix) with (length (column k prefix))
          by (unfold column; by rewrite length_fmap).
        rewrite <- trim_pad. by destruct (column k prefix).
      * by rewrite trim_snoc_None.
    + intros row Hrow. rewrite Hinv in Hrow.
      apply nonempty_length in Hrow as [-> _].
      etrans; [apply trim_length|]. unfold column. by rewrite length_fmap.
Qed.

Lemma ownRows_from_NoDup entries n rows rows' :
  NoDup rows.*1 → ownRows_from n rows entries = Some rows' → NoDup rows'.*1.
Proof.
  revert n rows. induction entries as [|entry entries IH]; intros n rows Hnd Hrun.
  - by injection Hrun as <-.
  - cbn [ownRows_from] in Hrun.
    destruct (members entry) as [ms|]; [|done]. cbn in Hrun.
    eapply IH; [|done]. by apply addOwnMember_fold_NoDup.
Qed.

Lemma ownRows_from_total entries n rows :
  Forall (λ e : ObsRecord, is_Some (members e)) entries →
  is_Some (ownRows_from n rows entries).
Proof.
  intros Hall. revert n rows. induction Hall as [|entry entries [ms Hm] _ IH];
    intros n rows; [by eexists|].
  cbn [ownRows_from]. rewrite Hm. apply IH.
Qed.

Lemma obj_set_same {V} (o : JsObject V) k v :
  NoDup o.*1 → (k, v) ∈ o → obj_set o k v = o.
Proof.
  induction o as [|[k0 v0] o IH]; [by intros _ ?%elem_of_nil|].
  rewrite fmap_cons. intros [Hk0 Hnd]%NoDup_cons [[= -> ->]|Hin]%elem_of_cons;
    cbn [obj_set].
  - by rewrite decide_True.
  - rewrite decide_False; [by rewrite IH|].
    intros ->. apply Hk0, list_elem_of_fmap. by exists (k, v).
Qed.

Lemma refresh_rows {V} (rows l : JsObject V) :
  NoDup rows.*1 → (∀ kv, kv ∈ l → kv ∈ rows) →
  foldl (λ rows kv, obj_set rows kv.1 kv.2) rows l = rows.
Proof.
  intros Hnd. induction l as [|[k v] l IH]; intros Hl; [done|].
  cbn [foldl fst snd]. rewrite obj_set_same; [|done|apply Hl; left].
  apply IH. intros kv Hkv. apply Hl. by right.
Qed.

Lemma ownRows_from_0 entries rows :
  ownRows entries = Some rows ↔ ownRows_from 0 [] entries = Some rows.
Proof.
  unfold ownRows.
  destruct (ownRows_from 0 [] entries) as [rows0|] eqn:Hrun; [|done].
  cbn. rewrite refresh_rows; [done| |done].
  eapply ownRows_from_NoDup; [|done]. constructor.
Qed.

(** ** The pivot: what holds for every member name *)

Lemma parseEntries_from_is_Some entries n st :
  is_Some (parseEntries_from n st entries)
  ↔ Forall (λ e : ObsRecord, is_Some (members e)) entries.
Proof.
  revert n st. induction entries as [|e entries IH]; intros n st.
  - split; [done|by eexists].
  - cbn [parseEntries_from]. rewrite Forall_cons.
    destruct (members e) as [ms|] eqn:Hms; cbn [mbind option_bind].
    + rewrite IH. split; [by split|by intros [_ ?]].
    + split; [by intros [? ?]|by intros [[? ?] _]].
Qed.

Lemma parseEntries_is_Some entries :
  is_Some (parseEntries entries)
  ↔ Forall (λ e : ObsRecord, is_Some (members e)) entries.
Proof.
  rewrite <- (parseEntries_from_is_Some entries 0
                {| pivot_rows := []; Object_prototype := ∅ |}).
  unfold parseEntries. destruct (parseEntries_from _ _ _); cbn; [|done].
  split; by eexists.
Qed.

Lemma obj_set_Forall {V} (P : string * V → Prop) (o : JsObject V) k v :
  Forall P o → P (k, v) → Forall P (obj_set o k v).
Proof.
  intros Ho Hkv. apply Forall_forall. intros kv [Hin| ->]%obj_set_elem; [|done].
  by eapply Forall_forall in Ho.
Qed.

Lemma Array_set_length {A} (a : list (option A)) i v :
  length (Array_set a i v) = length a `max` S i.
Proof.
  unfold Array_set. case_decide.
  - rewrite length_insert. lia.
  - rewrite !length_app, length_replicate. cbn. lia.
Qed.

Lemma lookupRow_noRow st key : lookupRow st key = noRow → ¬ inherited key.
Proof.
  unfold lookupRow, inherited. destruct (obj_get _ _); [done|].
  repeat case_decide; try done. intros _ [?|?]; done.
Qed.

Lemma addMember_within n index st member :
  index < n → rowsWithin n (pivot_rows st) →
  rowsWithin n (pivot_rows (addMember index st member)).
Proof.
  intros Hi Hst. unfold addMember.
  destruct (lookupRow st (rowKey (name member))) as [row| | |m|] eqn:Hlook;
    cbn [pivot_rows]; try done.
  - unfold lookupRow in Hlook.
    destruct (obj_get (pivot_rows st) _) as [row'|] eqn:Hget.
    2: { repeat case_decide; try done. by destruct (_ ≫= _). }
    injection Hlook as ->. apply obj_get_Some_elem in Hget.
    eapply Forall_forall in Hget; [|exact Hst]. destruct Hget as [Hk Hlen].
    apply obj_set_Forall; [done|]. split; [done|].
    cbn [snd] in *. rewrite Array_set_length. lia.
  - apply obj_set_Forall; [done|]. split; [by eapply lookupRow_noRow|].
    cbn [snd]. rewrite Array_set_length. cbn. lia.
Qed.

Lemma forEach_within n index st (ks : list (nat * option StoredObs)) :
  index < n → rowsWithin n (pivot_rows st) →
  rowsWithin n (pivot_rows (foldl (visitMember index) st ks)).
Proof.
  intros Hi. revert st. induction ks as [|k ks IH]; intros st Hst; [done|].
  cbn [foldl]. apply IH. unfold visitMember.
  destruct (elementAt _ _ _); [by apply addMember_within|done].
Qed.

Lemma rowsWithin_mono n n' rows : n ≤ n' → rowsWithin n rows → rowsWithin n' rows.
Proof.
  intros Hn Hrows. eapply Forall_impl; [exact Hrows|].
  intros kv [? ?]. split; [done|lia].
Qed.

Lemma parseEntries_from_within entries index st st' :
  rowsWithin index (pivot_rows st) →
  parseEntries_from index st entries = Some st' →
  rowsWithin (index + length entries) (pivot_rows st').
Proof.
  revert index st. induction entries as [|e entries IH]; intros index st Hst.
  - intros [= <-]. by rewrite Nat.add_0_r.
  - cbn [parseEntries_from length]. destruct (members e) as [ms|]; [|done].
    cbn [mbind option_bind]. intros Hrun.
    replace (index + S (length entries)) with (S index + length entries) by lia.
    eapply IH; [|done]. apply forEach_within; [lia|].
    eapply rowsWithin_mono; [|done]. lia.
Qed.

Lemma spread_length prototype value : length (spread prototype value) = length value.
Proof. unfold spread. apply length_imap. Qed.

Lemma parseEntries_within entries rows :
  parseEntries entries = Some rows → rowsWithin (length entries) rows.
Proof.
  unfold parseEntries.
  destruct (parseEntries_from 0 _ entries) as [st|] eqn:Hrun; [|done].
  cbn [mbind option_bind]. intros [= <-].
  apply parseEntries_from_within in Hrun; [|constructor]. cbn in Hrun.
  assert (Forall (λ kv, ¬ inherited kv.1 ∧ length kv.2 ≤ length entries)
            (Object_ownEntries (pivot_rows st))) as Hown.
  { apply Forall_forall. intros kv Hkv.
    rewrite Object_ownEntries_perm in Hkv. by eapply Forall_forall in Hrun. }
  revert Hrun Hown. generalize (Object_ownEntries (pivot_rows st)).
  generalize (pivot_rows st). intros rows0 l. revert rows0.
  induction l as [|kv l IH]; intros rows0 Hrows Hl; [done|].
  apply Forall_cons in Hl as [[Hk Hlen] Hl]. cbn [foldl]. apply IH; [|done].
  apply obj_set_Forall; [done|]. split; [done|].
  cbn [snd]. by rewrite spread_length.
Qed.

Lemma parseEntries_row_length entries rows key row :
  parseEntries entries = Some rows → obj_get rows key = Some row →
  length row ≤ length entries.
Proof.
  intros Hrows%parseEntries_within Hrow%obj_get_Some_elem.
  eapply Forall_forall in Hrow; [|exact Hrows]. by destruct Hrow.
Qed.

Lemma parseEntries_not_inherited entries rows key :
  parseEntries entries = Some rows → inherited key → obj_get rows key = None.
Proof.
  intros Hrows%parseEntries_within Hkey.
  destruct (obj_get rows key) as [row|] eqn:Hrow; [|done].
  apply obj_get_Some_elem in Hrow.
  eapply Forall_forall in Hrow; [|exact Hrows]. by destruct Hrow.
Qed.

(** ** The pivot when [Object.prototype] is left alone *)

Lemma elementAt_empty i slot : elementAt ∅ i slot = slot.
Proof. by destruct slot. Qed.

Lemma spread_empty value : spread ∅ value = value.
Proof.
  unfold spread. apply list_eq. intros i. rewrite list_lookup_imap.
  destruct (value !! i) as [slot|]; [|done]. cbn. by rewrite elementAt_empty.
Qed.

Lemma addMember_ordinary index rows member :
  ¬ inherited (rowKey (name member)) →
  addMember index {| pivot_rows := rows; Object_prototype := ∅ |} member
  = {| pivot_rows := addOwnMember index rows (Some member);
       Object_prototype := ∅ |}.
Proof.
  intros Hk. unfold addMember, lookupRow, addOwnMember. cbn [pivot_rows Object_prototype].
  destruct (obj_get rows _) as [row|]; [done|].
  unfold inherited in Hk.
  rewrite decide_False by tauto. rewrite decide_False by tauto.
  destruct (canonicalNumber _) as [n|]; cbn [mbind option_bind]; [|done].
  by rewrite lookup_empty.
Qed.

Lemma addMember_method n index rows member :
  rowsWithin n rows →
  inherited (rowKey (name member)) → rowKey (name member) ≠ "__proto__" →
  addMember index {| pivot_rows := rows; Object_prototype := ∅ |} member
  = {| pivot_rows := rows; Object_prototype := ∅ |}.
Proof.
  intros Hrows Hk Hproto. unfold addMember, lookupRow.
  cbn [pivot_rows Object_prototype].
  destruct (obj_get rows _) as [row|] eqn:Hget.
  { apply obj_get_Some_elem in Hget.
    eapply Forall_forall in Hget; [|exact Hrows]. by destruct Hget. }
  rewrite decide_False by done.
  destruct Hk as [?|Hk]; [done|]. by rewrite decide_True.
Qed.

Lemma forEach_plain n index rows (ks : list (nat * option StoredObs)) :
  index < n → rowsWithin n rows →
  Forall (λ slot : option StoredObs,
            match slot with
            | Some member => rowKey (name member) ≠ "__proto__"
            | None => True
            end) ks.*2 →
  foldl (visitMember index) {| pivot_rows := rows; Object_prototype := ∅ |} ks
  = {| pivot_rows := foldl (addOwnMember index) rows (plainSlot <$> ks.*2);
       Object_prototype := ∅ |}.
Proof.
  intros Hi. revert rows. induction ks as [|[k slot] ks IH]; intros rows Hrows Hks;
    [done|].
  rewrite fmap_cons in Hks. apply Forall_cons in Hks as [Hslot Hks].
  cbn [foldl fmap list_fmap snd]. unfold visitMember at 2.
  cbn [fst snd Object_prototype]. rewrite elementAt_empty.
  destruct slot as [member|]; cbn [plainSlot mbind option_bind];
    [|by apply IH].
  case_decide as Hk.
  - rewrite (addMember_method n index rows member) by done. by apply IH.
  - pose proof (addMember_within n index
                  {| pivot_rows := rows; Object_prototype := ∅ |} member Hi Hrows)
      as Hnext.
    rewrite addMember_ordinary in Hnext |- * by done. by apply IH.
Qed.

Lemma imap_pair_snd {A} (l : list A) : (imap pair l).*2 = l.
Proof.
  apply list_eq. intros i. rewrite list_lookup_fmap, list_lookup_imap.
  by destruct (l !! i).
Qed.

Lemma parseEntries_from_plain entries index rows :
  rowsWithin index rows → prototypeUntouched entries →
  parseEntries_from index {| pivot_rows := rows; Object_prototype := ∅ |} entries
  = (λ rows', {| pivot_rows := rows'; Object_prototype := ∅ |})
      <$> ownRows_from index rows (withoutInherited <$> entries).
Proof.
  revert index rows. induction entries as [|e entries IH];
    intros index rows Hrows Hproto; [done|].
  apply Forall_cons in Hproto as [He Hproto].
  cbn [parseEntries_from ownRows_from fmap list_fmap withoutInherited members].
  destruct (members e) as [ms|]; [|done].
  cbn [mbind option_bind default fmap option_fmap option_map] in *.
  assert (rowsWithin (S index) rows) as Hrows'
    by (eapply rowsWithin_mono; [|done]; lia).
  pose proof (forEach_within (S index) index
                {| pivot_rows := rows; Object_prototype := ∅ |}
                (imap pair ms) (Nat.lt_succ_diag_r index) Hrows') as Hnext.
  rewrite (forEach_plain (S index)) in Hnext |- *;
    [|lia|done|by rewrite imap_pair_snd|lia|done|by rewrite imap_pair_snd].
  rewrite imap_pair_snd in Hnext |- *. by apply IH.
Qed.

Lemma parseEntries_plain entries :
  prototypeUntouched entries →
  parseEntries entries = ownRows (withoutInherited <$> entries).
Proof.
  intros Hproto. unfold parseEntries, ownRows.
  rewrite parseEntries_from_plain; [|constructor|done].
  destruct (ownRows_from 0 [] _) as [rows|] eqn:Hrun; [|done].
  cbn [fmap option_fmap option_map mbind option_bind pivot_rows Object_prototype].
  f_equal.
  assert (NoDup rows.*1) as Hnd
    by (eapply ownRows_from_NoDup; [|done]; constructor).
  rewrite (refresh_rows rows (Object_entries rows)) by done.
  assert (∀ (l : JsObject (list (option StoredObs))) rows0,
            foldl (λ rows kv, obj_set rows kv.1 (spread ∅ kv.2)) rows0 l
            = foldl (λ rows kv, obj_set rows kv.1 kv.2) rows0 l) as ->.
  { induction l as [|kv l IH]; intros rows0; [done|].
    cbn [foldl]. by rewrite spread_empty, IH. }
  apply refresh_rows; [done|]. intros kv Hkv.
  by rewrite Object_ownEntries_perm in Hkv.
Qed.

Lemma lastNamed_plain key slots :
  ¬ inherited key → lastNamed key (plainSlot <$> slots) = lastNamed key slots.
Proof.
  intros Hkey. induction slots as [|slot slots IH] using rev_ind; [done|].
  rewrite fmap_app. cbn [fmap list_fmap]. rewrite !lastNamed_snoc, IH.
  destruct slot as [member|]; cbn [plainSlot mbind option_bind]; [|done].
  case_decide as Hk; [|done]. rewrite decide_False; [done|]. by intros <-.
Qed.

Lemma column_withoutInherited key entries :
  ¬ inherited key →
  column key (withoutInherited <$> entries) = column key entries.
Proof.
  intros Hkey. unfold column. rewrite <- list_fmap_compose.
  apply list_fmap_ext. intros i entry _. unfold compose, withoutInherited.
  cbn [members]. destruct (members entry) as [slots|]; [|done].
  cbn [fmap option_fmap option_map default]. by apply lastNamed_plain.
Qed.

Lemma parseEntries_rows entries rows :
  prototypeUntouched entries → parseEntries entries = Some rows →
  ∀ key, obj_get rows key
         = if decide (inherited key) then None
           else nonempty (trim (column key entries)).
Proof.
  intros Hproto Hrows key. case_decide as Hkey.
  - by eapply parseEntries_not_inherited.
  - rewrite parseEntries_plain in Hrows by done.
    apply ownRows_from_0 in Hrows.
    rewrite (ownRows_from_rows _ [] [] rows (λ _, eq_refl) Hrows key).
    cbn [app]. by rewrite column_withoutInherited.
Qed.




(** A member test named "constructor" has a value in the entry of the list,
    and gets no row. *)
Example constructor_named_member_has_no_row :
  parseEntries constructor_timeline = Some []
  ∧ ∃ m, column "constructor" constructor_timeline = [Some m].
Proof. split; [reflexivity|]. eexists. reflexivity. Qed.

(** ** Page fetcher: all totals, rejections and missing pages *)

Lemma Promise_all_bundles (w : World) (patientUuid : string)
    (data : list Fhir.Observation) (offsets : list nat) :
  paginates w patientUuid data →
  Promise_all (fetchObservation w
                 <$> (pageRequest (patientUuid, PAGE_SIZE) <$> offsets))
  = Some (bundle data <$> offsets).
Proof.
  intros Hpag. unfold Promise_all. rewrite <- list_fmap_compose.
  apply mapM_Some, Forall2_fmap, Forall_Forall2_diag, Forall_forall.
  intros k _. apply Hpag.
Qed.

Lemma pages_of_bundles (data : list Fhir.Observation) (offsets : list nat) :
  mapM (λ res : Fhir.Bundle, fmap (M:=list) Fhir.resource <$> Fhir.entry res)
       (bundle data <$> offsets)
  = Some (page data <$> offsets).
Proof.
  apply mapM_Some, Forall2_fmap, Forall_Forall2_diag, Forall_forall.
  intros k _. cbn. f_equal. rewrite <- list_fmap_compose. apply list_fmap_id.
Qed.

(** X1. On a remote that pages the patient's observations faithfully,
    [loadObsEntries] returns all of them in order, whatever their number:
    it requests the pages 0 .. n-1 once each, in order, where n is the larger
    of the prefetch window (6) and ceil(total/100). *)
Theorem X1_loadObsEntries_returns_all_observations (w : World)
    (patientUuid : string) (data : list Fhir.Observation) :
  paginates w patientUuid data →
  loadObsEntries w patientUuid
  = (firstPages patientUuid
       (CHUNK_PREFETCH_COUNT `max` Math_ceil_div (length data) PAGE_SIZE),
     Some data).
Proof.
  intros Hpag. unfold loadObsEntries, firstPages.
  rewrite retrieveFromIterator_spec.
  cbn [fhirObservationRequests queries offsetCounter].
  rewrite (Promise_all_bundles _ _ data) by done.
  change (head (bundle data <$> seq 0 CHUNK_PREFETCH_COUNT))
    with (Some (bundle data 0)).
  cbn [bundle Fhir.total].
  set (pages := Math_ceil_div (length data) PAGE_SIZE).
  assert (length data ≤ pages * PAGE_SIZE) as Hcover
    by (apply Math_ceil_div_ge; unfold PAGE_SIZE; lia).
  case_decide as Hbig.
  - assert (CHUNK_PREFETCH_COUNT < pages) as Hmore.
    { destruct (decide (CHUNK_PREFETCH_COUNT < pages)); [done|].
      assert (pages * PAGE_SIZE ≤ CHUNK_PREFETCH_COUNT * PAGE_SIZE)
        by (apply Nat.mul_le_mono_r; lia). lia. }
    rewrite retrieveFromIterator_spec. cbn [queries offsetCounter].
    rewrite (Promise_all_bundles _ _ data) by done.
    cbn [mbind option_bind].
    rewrite <- !fmap_app, <- seq_app.
    replace (CHUNK_PREFETCH_COUNT + (pages - CHUNK_PREFETCH_COUNT)) with pages
      by lia.
    rewrite Nat.max_r by lia.
    rewrite take_ge by (rewrite length_fmap, length_seq; lia).
    rewrite pages_of_bundles. cbn [mbind option_bind].
    do 2 f_equal. by apply concat_pages.
  - assert (pages ≤ CHUNK_PREFETCH_COUNT) as Hfew
      by (apply Math_ceil_div_le; [unfold PAGE_SIZE; lia|lia]).
    rewrite Nat.max_l by done. cbn [mbind option_bind].
    rewrite <- fmap_take, take_seq, Nat.min_l by done.
    rewrite pages_of_bundles. cbn [mbind option_bind].
    do 2 f_equal. by apply concat_pages.
Qed.

Lemma X1_witness :
  length (loadObsEntries (paging_world (replicate 601 sample_hgb) [])
            "patient-1").1 = 7
  ∧ (loadObsEntries (paging_world (replicate 601 sample_hgb) [])
       "patient-1").2 = Some (replicate 601 sample_hgb).
Proof.
  rewrite (X1_loadObsEntries_returns_all_observations
             (paging_world (replicate 601 sample_hgb) []) "patient-1"
             (replicate 601 sample_hgb)).
  - split; reflexivity.
  - intros offset. reflexivity.
Defined.

(** X2. If the remote rejects any request of the prefetch window,
    [loadObsEntries] rejects; exactly the 6 requests of the window have
    been issued and no further page is asked for. *)
Theorem X2_loadObsEntries_rejected_prefetch (w : World) (patientUuid : string)
    (r : Request) :
  r ∈ prefetch_requests patientUuid →
  fetchObservation w r = None →
  loadObsEntries w patientUuid = (prefetch_requests patientUuid, None).
Proof.
  intros Hr Hrej. unfold loadObsEntries.
  rewrite retrieveFromIterator_spec.
  cbn [fhirObservationRequests queries offsetCounter].
  fold (prefetch_requests patientUuid).
  destruct (Promise_all _) as [responses|] eqn:Hall; [|done].
  exfalso. assert (is_Some (Promise_all (fetchObservation w
                                 <$> prefetch_requests patientUuid))) as Hsome
    by (by rewrite Hall).
  apply mapM_is_Some in Hsome. rewrite Forall_fmap, Forall_forall in Hsome.
  destruct (Hsome _ Hr) as [res Hres].
  simpl in Hres. congruence.
Qed.

Lemma X2_witness :
  loadObsEntries offline_world "patient-1" = (prefetch_requests "patient-1", None).
Proof.
  apply (X2_loadObsEntries_rejected_prefetch offline_world "patient-1"
           (pageRequest ("patient-1", PAGE_SIZE) 0)).
  - vm_compute. left.
  - reflexivity.
Defined.

(** X3. A patient without observations: when the window is answered and the
    first bundle announces a total of 0, [loadObsEntries] returns the empty
    list without reading the [entry] field of any bundle (which such bundles
    need not have). *)
Theorem X3_loadObsEntries_no_observations (w : World) (patientUuid : string)
    (first : Fhir.Bundle) :
  (∀ r, r ∈ prefetch_requests patientUuid → is_Some (fetchObservation w r)) →
  fetchObservation w (pageRequest (patientUuid, PAGE_SIZE) 0) = Some first →
  Fhir.total first = 0 →
  loadObsEntries w patientUuid = (prefetch_requests patientUuid, Some []).
Proof.
  intros Hans Hfirst Htotal.
  destruct (prefetch_responses w patientUuid Hans) as (responses & Hall & Hres).
  rewrite (loadObsEntries_prefetch_window w patientUuid responses first Hall).
  - by rewrite Htotal.
  - rewrite head_lookup, Hres; [done|unfold CHUNK_PREFETCH_COUNT; lia].
  - lia.
Qed.

Lemma X3_witness :
  loadObsEntries (bare_world 0) "patient-1"
  = (prefetch_requests "patient-1", Some []).
Proof.
  apply (X3_loadObsEntries_no_observations (bare_world 0) "patient-1"
           {| Fhir.total := 0; Fhir.entry := None |}).
  - intros r _. by eexists.
  - reflexivity.
  - reflexivity.
Defined.

(** X4. A bundle without [entry] among the pages that are read: when the
    announced total (at most 600) is positive and one of the first
    ceil(total/100) bundles has no [entry] field, [loadObsEntries] faults. *)
Theorem X4_loadObsEntries_page_without_entry (w : World) (patientUuid : string)
    (first res : Fhir.Bundle) (i : nat) :
  (∀ r, r ∈ prefetch_requests patientUuid → is_Some (fetchObservation w r)) →
  fetchObservation w (pageRequest (patientUuid, PAGE_SIZE) 0) = Some first →
  Fhir.total first ≤ CHUNK_PREFETCH_COUNT * PAGE_SIZE →
  i < Math_ceil_div (Fhir.total first) PAGE_SIZE →
  fetchObservation w (pageRequest (patientUuid, PAGE_SIZE) i) = Some res →
  Fhir.entry res = None →
  loadObsEntries w patientUuid = (prefetch_requests patientUuid, None).
Proof.
  intros Hans Hfirst Htotal Hi Hres Hentry.
  destruct (prefetch_responses w patientUuid Hans) as (responses & Hall & Hlook).
  assert (Math_ceil_div (Fhir.total first) PAGE_SIZE ≤ CHUNK_PREFETCH_COUNT)
    as Hceil by (apply Math_ceil_div_le; [unfold PAGE_SIZE; lia|done]).
  rewrite (loadObsEntries_prefetch_window w patientUuid responses first Hall);
    [|rewrite head_lookup, Hlook; [done|unfold CHUNK_PREFETCH_COUNT; lia]
     |done].
  f_equal.
  destruct (mapM _ _) as [pages|] eqn:Hpages; [|done].
  exfalso.
  assert (is_Some (mapM
            (λ res : Fhir.Bundle, fmap (M:=list) Fhir.resource <$> Fhir.entry res)
            (take (Math_ceil_div (Fhir.total first) PAGE_SIZE) responses)))
    as Hsome by (by rewrite Hpages).
  apply mapM_is_Some in Hsome. rewrite Forall_forall in Hsome.
  destruct (Hsome res) as [x Hx].
  - apply list_elem_of_lookup. exists i.
    rewrite lookup_take_lt by done. rewrite Hlook by lia. done.
  - simpl in Hx. by rewrite Hentry in Hx.
Qed.

Lemma X4_witness :
  loadObsEntries (bare_world 1) "patient-1"
  = (prefetch_requests "patient-1", None).
Proof.
  apply (X4_loadObsEntries_page_without_entry (bare_world 1) "patient-1"
           {| Fhir.total := 1; Fhir.entry := None |}
           {| Fhir.total := 1; Fhir.entry := None |} 0).
  - intros r _. by eexists.
  - reflexivity.
  - vm_compute. lia.
  - vm_compute. lia.
  - reflexivity.
  - reflexivity.
Defined.

Lemma pageRequest_inj (q : string * nat) : Inj (=) (=) (pageRequest q).
Proof.
  intros i j [= Heq]. unfold PAGE_SIZE in Heq. lia.
Qed.

(** X5. The request generator never repeats a page and two bursts continue
    where the first one stopped: drawing [n] and then [m] requests gives the
    same requests, and the same generator state, as drawing [n + m] at once;
    the [n] requests drawn are pairwise distinct. *)
Theorem X5_retrieveFromIterator_bursts (it : RequestIterator) (n m : nat) :
  retrieveFromIterator it (n + m)
  = ((retrieveFromIterator it n).1
       ++ (retrieveFromIterator (retrieveFromIterator it n).2 m).1,
     (retrieveFromIterator (retrieveFromIterator it n).2 m).2)
  ∧ length (retrieveFromIterator it n).1 = n
  ∧ NoDup (retrieveFromIterator it n).1.
Proof.
  rewrite !retrieveFromIterator_spec. cbn [fst snd queries offsetCounter].
  split_and!.
  - by rewrite seq_app, fmap_app, Nat.add_assoc.
  - by rewrite length_fmap, length_seq.
  - apply NoDup_fmap_2; [apply pageRequest_inj|apply NoDup_seq].
Qed.

(** ** Freshness cache: bound and round trip *)



Lemma obj_set_here {V} (o : JsObject V) k v : (k, v) ∈ obj_set o k v.
Proof.
  apply obj_get_Some_elem. rewrite obj_get_set. by rewrite decide_True.
Qed.

(** The entry just put is found again when every entry of another patient
    is older. *)
Lemma addUserDataToCache_lookup (cache : JsObject CacheRecord) (now : Z)
    (patientUuid : string) (data : PatientData) (indicator : string) :
  NoDup cache.*1 →
  (∀ e, e ∈ cache → e.1 ≠ patientUuid → (created e < now)%Z) →
  obj_get (addUserDataToCache cache now patientUuid data indicator) patientUuid
  = Some (data, now, indicator).
Proof.
  intros Hnd Hold.
  set (stored := obj_set cache patientUuid (data, now, indicator)).
  destruct (decide (3 < length stored)) as [Hlen|Hlen].
  - rewrite addUserDataToCache_large by done. fold stored.
    pose proof (Array_sort_ordered created (Object_ownEntries stored))
      as Hsorted.
    assert (Array_sort (λ a b, (created b - created a)%Z)
              (Object_ownEntries stored) ≡ₚ stored) as Hperm
      by (by rewrite Array_sort_perm, Object_ownEntries_perm).
    set (sorted := Array_sort _ (Object_ownEntries stored)) in *.
    assert (NoDup stored.*1) as Hnds by by apply obj_set_NoDup.
    assert ((patientUuid, (data, now, indicator)) ∈ sorted) as Hin
      by (rewrite Hperm; apply obj_set_here).
    destruct sorted as [|x rest]; [by apply elem_of_nil in Hin|].
    apply StronglySorted_inv in Hsorted as [_ Hhead].
    assert (x = (patientUuid, (data, now, indicator))) as ->.
    { apply elem_of_cons in Hin as [<-|Hin]; [done|].
      rewrite Forall_forall in Hhead. specialize (Hhead _ Hin).
      assert (x ∈ stored) as Hx by (rewrite <- Hperm; left).
      destruct (decide (x.1 = patientUuid)) as [Hk|Hk].
      - destruct x as [k v]. simpl in Hk. subst k.
        apply (obj_get_elem_NoDup _ _ _ Hnds) in Hx.
        unfold stored in Hx. rewrite obj_get_set, decide_True in Hx by done.
        by injection Hx as <-.
      - apply obj_set_elem in Hx as [Hx| ->]; [|done].
        specialize (Hold _ Hx Hk). unfold created in *. simpl in Hhead. lia. }
    cbn [take obj_get]. by rewrite decide_True.
  - rewrite addUserDataToCache_small by (fold stored; lia).
    rewrite obj_get_set. by rewrite decide_True.
Qed.

(** X7. Put then get: when every entry of another patient is older than
    [now], the entry just put is not evicted; the patient's record is
    exactly what was put, and a probe that returns the stored indicator
    makes [getUserDataFromCache] return the aggregate put, while any other
    answer of the probe makes it return [undefined]. *)
Theorem X7_put_then_get (w : World) (cache : JsObject CacheRecord) (now : Z)
    (patientUuid : string) (data : PatientData) (indicator : string) :
  NoDup cache.*1 →
  (∀ e, e ∈ cache → e.1 ≠ patientUuid → (created e < now)%Z) →
  obj_get (addUserDataToCache cache now patientUuid data indicator) patientUuid
  = Some (data, now, indicator)
  ∧ (getLatestObsUuid w patientUuid = Some (Some indicator) →
     getUserDataFromCache w
       (addUserDataToCache cache now patientUuid data indicator) patientUuid
     = Some (Some data))
  ∧ (∀ latest,
       getLatestObsUuid w patientUuid = Some latest →
       latest ≠ Some indicator →
       getUserDataFromCache w
         (addUserDataToCache cache now patientUuid data indicator) patientUuid
       = Some None).
Proof.
  intros Hnd Hold.
  pose proof (addUserDataToCache_lookup cache now patientUuid data indicator
                Hnd Hold) as Hget.
  split_and!; [done| |].
  - intros Hprobe. unfold getUserDataFromCache. rewrite Hget, Hprobe.
    cbn [mbind option_bind]. by rewrite decide_True.
  - intros latest Hprobe Hne. unfold getUserDataFromCache. rewrite Hget, Hprobe.
    cbn [mbind option_bind]. by rewrite decide_False.
Qed.

Lemma X7_witness :
  obj_get (addUserDataToCache sample_cache 2000 "patient-2" [] "obs-9")
    "patient-2" = Some ([], 2000%Z, "obs-9")
  ∧ getUserDataFromCache (probe_world "obs-9")
      (addUserDataToCache sample_cache 2000 "patient-2" [] "obs-9") "patient-2"
    = Some (Some []).
Proof.
  destruct (X7_put_then_get (probe_world "obs-9") sample_cache 2000
              "patient-2" [] "obs-9") as (Hget & Hhit & _).
  - by apply (bool_decide_unpack _).
  - intros e He _. vm_compute in He.
    apply elem_of_cons in He as [->|He]; [reflexivity|].
    by apply elem_of_nil in He.
  - split; [exact Hget|]. apply Hhit. reflexivity.
Defined.





(** ** Concept resolver: memoization *)

Lemma uniq_acc (seen l : list string) :
  NoDup seen →
  let r := foldl (λ seen x, if decide (x ∈ seen) then seen else seen ++ [x])
             seen l in
  NoDup r ∧ ∀ x, x ∈ r ↔ x ∈ seen ∨ x ∈ l.
Proof.
  revert seen. induction l as [|y l IH]; intros seen Hnd; cbn [foldl].
  - split; [done|]. set_solver.
  - case_decide as Hy.
    + destruct (IH seen Hnd) as [Hnd' Hin]. split; [done|].
      intros x. rewrite Hin. set_solver.
    + destruct (IH (seen ++ [y])) as [Hnd' Hin].
      { apply NoDup_app. split_and!; [done|set_solver|apply NoDup_singleton]. }
      split; [done|]. intros x. rewrite Hin. set_solver.
Qed.


Lemma elem_of_uniq l x : x ∈ uniq l ↔ x ∈ l.
Proof.
  unfold uniq. destruct (uniq_acc [] l) as [_ ->]; [constructor|]. set_solver.
Qed.

Lemma loadConcept_fold (w : World) (us : list ConceptUuid) :
  ∀ cache acc,
    let r := foldl (loadConcept w) (cache, acc) us in
    r.2 = acc ++ (resolveConcept w cache <$> us)
    ∧ ∀ u, r.1 !! u
           = if decide (u ∈ us) then Some (resolveConcept w cache u)
             else cache !! u.
Proof.
  induction us as [|u0 us IH]; intros cache acc; cbn [foldl].
  - split; [by rewrite app_nil_r|]. intros u. by rewrite decide_False by set_solver.
  - set (cache1 := (loadConcept w (cache, acc) u0).1).
    assert (loadConcept w (cache, acc) u0
            = (cache1, acc ++ [resolveConcept w cache u0])) as ->.
    { unfold cache1, loadConcept, resolveConcept. cbn [fst snd].
      by destruct (cache !! u0). }
    assert (∀ u, cache1 !! u
                 = if decide (u = u0) then Some (resolveConcept w cache u0)
                   else cache !! u) as Hcache1.
    { intros u. unfold cache1, loadConcept, resolveConcept. cbn [fst snd].
      destruct (cache !! u0) as [p|] eqn:Hu0; cbn [fst from_option Datatypes.id].
      - case_decide; [by subst|done].
      - case_decide; [subst; by rewrite lookup_insert_eq
                     |by rewrite lookup_insert_ne]. }
    assert (∀ u, resolveConcept w cache1 u = resolveConcept w cache u) as Hres.
    { intros u. unfold resolveConcept at 1. rewrite Hcache1.
      case_decide; [by subst|done]. }
    destruct (IH cache1 (acc ++ [resolveConcept w cache u0])) as [Hacc Hlook].
    split.
    + rewrite Hacc, <- assoc_L by apply _. f_equal. rewrite fmap_cons.
      cbn [app]. f_equal. apply list_fmap_ext. intros _ u _. apply Hres.
    + intros u. rewrite Hlook, Hres, Hcache1.
      repeat case_decide; set_solver.
Qed.

Lemma loadPresentConcepts_closed (w : World)
    (cache : gmap string (option Concept.ConceptRecord))
    (entries : list Fhir.Observation) :
  let codes := getEntryConceptClassUuid <$> entries in
  (loadPresentConcepts w cache entries).2
  = Promise_all (resolveConcept w cache <$> uniq codes)
  ∧ ∀ u, (loadPresentConcepts w cache entries).1 !! u
         = if decide (u ∈ codes) then Some (resolveConcept w cache u)
           else cache !! u.
Proof.
  intros codes. unfold loadPresentConcepts. fold codes.
  destruct (loadConcept_fold w (uniq codes) cache []) as [Hacc Hlook].
  destruct (foldl _ _ _) as [cache' promises]. cbn [fst snd] in *.
  split; [by rewrite Hacc|].
  intros u. rewrite Hlook.
  destruct (decide (u ∈ uniq codes)) as [Hu|Hu]; rewrite elem_of_uniq in Hu.
  - by rewrite decide_True.
  - by rewrite decide_False.
Qed.




(** ** Range assessor: the categories as intervals *)

Lemma spec_first_match_normal value checks :
  Forall (λ c, c.2 ≠ NORMAL) checks →
  spec_first_match value checks = NORMAL
  ↔ ∀ b s category, (b, s, category) ∈ checks → ¬ matches value b s.
Proof.
  induction 1 as [|[[b0 s0] c0] checks Hc0 _ IH]; cbn [spec_first_match].
  - split; [|done]. by intros _ b s c Hin%elem_of_nil.
  - case_decide as Hm.
    + split; [done|]. intros Hnone. destruct (Hnone b0 s0 c0); [left|done].
    + rewrite IH. split.
      * intros Hnone b s c [[= -> -> ->]|Hin]%elem_of_cons; [done|].
        by apply (Hnone b s c).
      * intros Hnone b s c Hin. apply (Hnone b s c). by right.
Qed.

(** X11. [assessValue] reports NORMAL exactly when the value lies strictly
    beyond none of the bounds that are numbers: above no high bound and
    below no low bound. *)
Theorem X11_assessValue_normal_iff_no_bound_crossed (meta : ObsMetaInfo)
    (value : Q) :
  assessValue meta value = NORMAL
  ↔ ∀ b s category, (b, s, category) ∈ spec_checks meta → ¬ matches value b s.
Proof.
  rewrite assessValue_first_match. apply spec_first_match_normal.
  unfold spec_checks. repeat constructor; done.
Qed.

(** X12. With all six bounds numeric and ordered
    lowAbsolute <= lowCritical <= lowNormal <= hiNormal <= hiCritical
    <= hiAbsolute, the seven categories are the seven intervals the bounds
    cut the line into; a value on a bound belongs to the interval on the
    normal side of it. *)
Theorem X12_assessValue_intervals (meta : ObsMetaInfo) (value : Q)
    (la lc ln hn hc ha : Q) :
  lowAbsolute meta = num la → lowCritical meta = num lc →
  lowNormal meta = num ln → hiNormal meta = num hn →
  hiCritical meta = num hc → hiAbsolute meta = num ha →
  (la <= lc ∧ lc <= ln ∧ ln <= hn ∧ hn <= hc ∧ hc <= ha)%Q →
  (assessValue meta value = OFF_SCALE_HIGH ↔ (ha < value)%Q)
  ∧ (assessValue meta value = CRITICALLY_HIGH ↔ (hc < value ∧ value <= ha)%Q)
  ∧ (assessValue meta value = HIGH ↔ (hn < value ∧ value <= hc)%Q)
  ∧ (assessValue meta value = NORMAL ↔ (ln <= value ∧ value <= hn)%Q)
  ∧ (assessValue meta value = LOW ↔ (lc <= value ∧ value < ln)%Q)
  ∧ (assessValue meta value = CRITICALLY_LOW ↔ (la <= value ∧ value < lc)%Q)
  ∧ (assessValue meta value = OFF_SCALE_LOW ↔ (value < la)%Q).
Proof.
  intros Hla Hlc Hln Hhn Hhc Hha Horder.
  rewrite assessValue_first_match. unfold spec_checks.
  rewrite Hla, Hlc, Hln, Hhn, Hhc, Hha. cbn [spec_first_match].
  repeat case_decide; cbn [matches] in *;
    split_and!; (split; [try done|]); intros; try done; lra.
Qed.

Lemma X12_witness :
  assessValue full_meta 17 = NORMAL ∧ assessValue full_meta 26 = CRITICALLY_HIGH.
Proof.
  split.
  - apply (X12_assessValue_intervals full_meta 17 2 8 12 17 25 30);
      try reflexivity; split_and!; by vm_compute.
  - apply (X12_assessValue_intervals full_meta 26 2 8 12 17 25 30);
      try reflexivity; split_and!; by vm_compute.
Defined.

(** ** Reconstruction: what is ignored, what is kept *)

Lemma recognizedPanels_filter uuids es :
  recognizedPanels uuids (filter (λ e, getEntryConceptClassUuid e ∈ uuids) es)
  = recognizedPanels uuids es.
Proof.
  unfold recognizedPanels. rewrite list_filter_filter.
  apply list_filter_iff. tauto.
Qed.

Lemma recognizedSingles_filter uuids es :
  recognizedSingles uuids (filter (λ e, getEntryConceptClassUuid e ∈ uuids) es)
  = recognizedSingles uuids es.
Proof.
  unfold recognizedSingles. rewrite list_filter_filter.
  apply list_filter_iff. tauto.
Qed.

Lemma passes_recognized tcs es :
  passes tcs (filter (λ e, getEntryConceptClassUuid e ∈ uuidsOf tcs) es)
  = passes tcs es.
Proof.
  rewrite !passes_closed.
  unfold filedOf, refsOf, singlesOf, panelsOf.
  by rewrite recognizedPanels_filter, recognizedSingles_filter.
Qed.

(** X13. Observations whose concept is not a test concept have no influence
    on the aggregate: reconstructing from all entries gives the same result
    as reconstructing from the recognized ones alone. *)
Theorem X13_unrecognized_entries_are_ignored (Date_parse : string → Z)
    (allConcepts : list Concept.ConceptRecord) (es : list Fhir.Observation) :
  reconstruct Date_parse allConcepts (filter (recognized allConcepts) es)
  = reconstruct Date_parse allConcepts es.
Proof.
  unfold reconstruct, recognized. by rewrite passes_recognized.
Qed.











(** ** loadPatientData: effects on the process state, round trip, rejection *)

Lemma loadPresentConcepts_grows (w : World)
    (cache : gmap string (option Concept.ConceptRecord))
    (entries : list Fhir.Observation) :
  cache ⊆ (loadPresentConcepts w cache entries).1.
Proof.
  destruct (loadPresentConcepts_closed w cache entries) as [_ Hlook].
  apply map_subseteq_spec. intros u p Hu. rewrite Hlook.
  case_decide; [|done]. unfold resolveConcept. by rewrite Hu.
Qed.

(** X17. What a call of [loadPatientData] does to the process state: the
    concept memo only grows; a call that fails leaves the freshness cache
    as it was; a call that succeeds either was a cache hit and changed
    nothing, or was a miss and put the aggregate it returns under the
    patient, with the identifier of the first fetched entry as indicator. *)
Theorem X17_loadPatientData_state_effects (Date_parse : string → Z) (w : World)
    (now : Z) (st st' : Process) (patientUuid : string)
    (result : option PatientData) :
  loadPatientData Date_parse w now st patientUuid = (st', result) →
  conceptCache st ⊆ conceptCache st'
  ∧ match result with
    | None => patientResultsDataCache st' = patientResultsDataCache st
    | Some data =>
        (st' = st
         ∧ getUserDataFromCache w (patientResultsDataCache st) patientUuid
           = Some (Some data))
        ∨ (getUserDataFromCache w (patientResultsDataCache st) patientUuid
           = Some None
           ∧ ∃ entries newest,
               (loadObsEntries w patientUuid).2 = Some entries
               ∧ head entries = Some newest
               ∧ patientResultsDataCache st'
                 = addUserDataToCache (patientResultsDataCache st) now
                     patientUuid data (Fhir.id newest))
    end.
Proof.
  unfold loadPatientData.
  destruct (getUserDataFromCache _ _ _) as [[cached|]|] eqn:Hcache.
  - intros [= <- <-]. split; [done|]. by left.
  - destruct (loadObsEntries w patientUuid).2 as [entries|] eqn:Hentries.
    2: { by intros [= <- <-]. }
    pose proof (loadPresentConcepts_grows w (conceptCache st) entries) as Hgrow.
    destruct (loadPresentConcepts w (conceptCache st) entries)
      as [memo [allConcepts|]]; cbn [fst] in Hgrow.
    2: { by intros [= <- <-]. }
    destruct (reconstruct Date_parse allConcepts entries) as [sortedObs|].
    2: { by intros [= <- <-]. }
    destruct (head entries) as [newest|] eqn:Hhead.
    2: { by intros [= <- <-]. }
    intros [= <- <-]. split; [done|]. right. split; [done|].
    by exists entries, newest.
  - by intros [= <- <-].
Qed.

Lemma X17_witness :
  patientResultsDataCache
    (loadPatientData sample_Date_parse (paging_world [] []) 1000 warm_process
       "patient-2").1
  = sample_cache.
Proof.
  destruct (loadPatientData sample_Date_parse (paging_world [] []) 1000
              warm_process "patient-2") as [st' result] eqn:Hload.
  destruct (X17_loadPatientData_state_effects sample_Date_parse
              (paging_world [] []) 1000 warm_process st' "patient-2" result)
    as [_ Hcache]; [exact Hload|].
  vm_compute in Hload. injection Hload as <- <-. exact Hcache.
Defined.



(** X19. Offline: when the remote rejects every observation request,
    [loadPatientData] rejects, whether or not an aggregate of the patient is
    cached; nothing cached is served without the probe, and the process
    state is unchanged. *)
Theorem X19_offline_load_rejects (Date_parse : string → Z) (w : World)
    (now : Z) (st : Process) (patientUuid : string) :
  (∀ r, fetchObservation w r = None) →
  loadPatientData Date_parse w now st patientUuid = (st, None).
Proof.
  intros Hoff. unfold loadPatientData, getUserDataFromCache.
  destruct (obj_get _ _) as [[[data t] indicator]|].
  - unfold getLatestObsUuid. by rewrite Hoff.
  - unfold loadObsEntries. rewrite retrieveFromIterator_spec.
    cbn [fhirObservationRequests queries offsetCounter].
    assert (Promise_all (fetchObservation w
                           <$> (pageRequest (patientUuid, PAGE_SIZE)
                                  <$> seq 0 CHUNK_PREFETCH_COUNT)) = None)
      as ->.
    { cbn. by rewrite (Hoff (pageRequest (patientUuid, PAGE_SIZE) 0)). }
    done.
Qed.

Lemma X19_witness :
  loadPatientData sample_Date_parse offline_world 1000 warm_process "patient-1"
  = (warm_process, None).
Proof.
  apply X19_offline_load_rejects. intros r. reflexivity.
Defined.

(** ** Timeline header: tallies *)

Section tallies.
Context {K : Type} `{EqDecision K}.
Implicit Types (k : K) (l : list K) (columns : list (K * nat)).

Lemma tallyStep_fresh k columns :
  k ∉ columns.*1 → tallyStep k columns = columns ++ [(k, 1)].
Proof.
  unfold tallyStep. induction columns as [|[k' n] columns IH]; [done|].
  rewrite fmap_cons, not_elem_of_cons. intros [Hne Hnin].
  cbn [findOrPush fst]. rewrite bool_decide_eq_false_2 by done.
  by rewrite IH.
Qed.

Lemma tallyStep_found k n columns1 columns2 :
  k ∉ columns1.*1 →
  tallyStep k (columns1 ++ (k, n) :: columns2) = columns1 ++ (k, S n) :: columns2.
Proof.
  unfold tallyStep. induction columns1 as [|[k' n'] columns1 IH].
  - intros _. cbn. by rewrite bool_decide_eq_true_2.
  - rewrite fmap_cons, not_elem_of_cons. intros [Hne Hnin].
    cbn [findOrPush fst app]. rewrite bool_decide_eq_false_2 by done.
    by rewrite IH.
Qed.

Lemma tally_snoc l k : tally (l ++ [k]) = tallyStep k (tally l).
Proof. unfold tally. by rewrite foldl_app. Qed.

(** A column of key [k] splits the columns, when keys are distinct. *)
Lemma columns_split k columns :
  k ∈ columns.*1 →
  ∃ n columns1 columns2,
    columns = columns1 ++ (k, n) :: columns2 ∧ k ∉ columns1.*1.
Proof.
  induction columns as [|[k' n'] columns IH]; [by intros ?%elem_of_nil|].
  rewrite fmap_cons. destruct (decide (k = k')) as [<-|Hne].
  - intros _. exists n', [], columns. split; [done|]. apply not_elem_of_nil.
  - intros [?|Hin]%elem_of_cons; [done|].
    destruct (IH Hin) as (n & c1 & c2 & -> & Hnin).
    exists n, ((k', n') :: c1), c2. split; [done|].
    rewrite fmap_cons. by apply not_elem_of_cons.
Qed.

Lemma occurrences_snoc k l x :
  occurrences k (l ++ [x]) = occurrences k l + (if decide (x = k) then 1 else 0).
Proof.
  unfold occurrences. rewrite filter_app, length_app. f_equal.
  rewrite filter_cons, filter_nil. by case_decide.
Qed.

Lemma occurrences_0 k l : k ∉ l → occurrences k l = 0.
Proof.
  intros Hk. unfold occurrences.
  destruct (filter _ l) as [|x l'] eqn:Hf; [done|].
  assert (x ∈ filter (λ x, x = k) l) as [-> Hx]%list_elem_of_filter
    by (rewrite Hf; left).
  done.
Qed.

(** The invariant of the tally: distinct keys, the keys are the elements
    seen, every size is the number of occurrences and positive. *)
Lemma tally_invariant l :
  NoDup (tally l).*1
  ∧ (∀ k, k ∈ (tally l).*1 ↔ k ∈ l)
  ∧ Forall (λ c, c.2 = occurrences c.1 l ∧ 0 < c.2) (tally l)
  ∧ sum_list_with snd (tally l) = length l.
Proof.
  induction l as [|x l (Hnd & Hkeys & Hsizes & Hsum)] using rev_ind.
  - split_and!; [constructor|done|constructor|done].
  - rewrite tally_snoc. destruct (decide (x ∈ (tally l).*1)) as [Hin|Hnin].
    + destruct (columns_split x (tally l) Hin) as (n & c1 & c2 & Heq & Hc1).
      rewrite Heq, tallyStep_found by done.
      assert ((c1 ++ (x, S n) :: c2).*1 = (tally l).*1) as Hsame
        by (by rewrite Heq, !fmap_app).
      pose proof Hnd as Hnd0.
      rewrite Heq in Hnd, Hsizes, Hsum.
      rewrite fmap_app, fmap_cons in Hnd.
      apply NoDup_app in Hnd as (Hnd1 & _ & [Hx Hnd2]%NoDup_cons).
      apply Forall_app in Hsizes as [Hs1 [Hsx Hs2]%Forall_cons].
      cbn [fst snd] in Hsx, Hx.
      assert (∀ c : K * nat, c.1 ≠ x →
                c.2 = occurrences c.1 l ∧ 0 < c.2 →
                c.2 = occurrences c.1 (l ++ [x]) ∧ 0 < c.2) as Hother.
      { intros c Hne [Hc Hpos]. rewrite occurrences_snoc, decide_False by done.
        lia. }
      split_and!.
      * by rewrite Hsame.
      * intros k. rewrite Hsame, Hkeys, elem_of_app, list_elem_of_singleton.
        split; [tauto|]. intros [?| ->]; [done|]. by apply Hkeys.
      * apply Forall_app. split; [|apply Forall_cons; split].
        -- rewrite Forall_forall in Hs1 |- *. intros c Hc.
           apply Hother; [|by apply Hs1]. intros Heqx. apply Hc1.
           rewrite <- Heqx. by apply (list_elem_of_fmap_2 fst).
        -- cbn [fst snd]. rewrite occurrences_snoc, decide_True by done. lia.
        -- rewrite Forall_forall in Hs2 |- *. intros c Hc.
           apply Hother; [|by apply Hs2]. intros Heqx. apply Hx.
           rewrite <- Heqx. by apply (list_elem_of_fmap_2 fst).
      * rewrite sum_list_with_app in Hsum |- *.
        cbn [sum_list_with snd] in *. rewrite length_app. cbn [length]. lia.
    + rewrite tallyStep_fresh by done.
      rewrite !fmap_app, !fmap_cons. cbn [fst fmap list_fmap].
      split_and!.
      * apply NoDup_app. split_and!; [done| |apply NoDup_singleton].
        intros k Hk ->%list_elem_of_singleton. done.
      * intros k. rewrite !elem_of_app, !list_elem_of_singleton. by rewrite Hkeys.
      * apply Forall_app. split.
        -- rewrite Forall_forall in Hsizes |- *. intros [k m] Hc.
           destruct (Hsizes _ Hc) as [Hm Hpos]. cbn [fst snd] in *.
           rewrite occurrences_snoc, decide_False; [lia|].
           intros <-. apply Hnin. by apply (list_elem_of_fmap_2 fst) in Hc.
        -- apply Forall_singleton. cbn [fst snd].
           rewrite occurrences_snoc, decide_True by done.
           rewrite occurrences_0; [lia|]. by rewrite <- Hkeys.
      * rewrite sum_list_with_app, length_app. cbn. lia.
Qed.

Lemma contiguous_snoc l x :
  contiguous (l ++ [x]) → contiguous l ∧ (x ∈ l → last l = Some x).
Proof.
  induction l as [|y l IH]; cbn [app contiguous].
  - intros _. split; [done|]. by intros ?%elem_of_nil.
  - intros [Hy Hl]. destruct (IH Hl) as [Hc Hlast]. split_and!.
    + intros Hin. specialize (Hy ltac:(set_solver)).
      destruct l; [by apply elem_of_nil in Hin|done].
    + done.
    + intros [->|Hin]%elem_of_cons.
      * destruct l as [|z l]; [done|].
        specialize (Hy ltac:(set_solver)). injection Hy as ->.
        rewrite last_cons. by rewrite Hlast by left.
      * rewrite last_cons. by rewrite Hlast.
Qed.

Lemma spanned_snoc columns k n :
  spanned (columns ++ [(k, n)]) = spanned columns ++ replicate n k.
Proof. unfold spanned. by rewrite bind_app, bind_singleton. Qed.

(** When equal keys are adjacent, the columns cover the cells in order. *)
Lemma tally_spanned l :
  contiguous l →
  spanned (tally l) = l
  ∧ ∀ x, last l = Some x →
      ∃ columns n, tally l = columns ++ [(x, n)] ∧ x ∉ columns.*1.
Proof.
  induction l as [|x l IH] using rev_ind; [by split|].
  intros [Hc Hlast]%contiguous_snoc. destruct (IH Hc) as [Hspan Hcol].
  rewrite tally_snoc.
  assert (∃ columns n,
            tallyStep x (tally l) = columns ++ [(x, S n)]
            ∧ (x ∉ columns.*1)
            ∧ spanned columns ++ replicate n x = l)
    as (columns & n & -> & Hfresh & Hcells).
  { destruct (decide (x ∈ l)) as [Hin|Hnin].
    - destruct (Hcol x (Hlast Hin)) as (columns & n & Heq & Hfresh).
      exists columns, n. rewrite Heq, tallyStep_found by done.
      split_and!; [done..|]. by rewrite <- Hspan, Heq, spanned_snoc.
    - destruct (tally_invariant l) as (_ & Hkeys & _).
      exists (tally l), 0. rewrite tallyStep_fresh by (by rewrite Hkeys).
      split_and!; [done|by rewrite Hkeys|]. by rewrite Hspan, app_nil_r. }
  split.
  - by rewrite spanned_snoc, replicate_S_end, assoc_L, Hcells by apply _.
  - intros y. rewrite last_snoc. intros [= <-]. by exists columns, (S n).
Qed.

End tallies.

(** ** Timeline header: parseTime *)

Lemma findOrPush_fmap {C D} (f : C → D) (found : C → bool) (found' : D → bool)
    (increment : C → C) (increment' : D → D) (fresh : C) (columns : list C) :
  (∀ c, found' (f c) = found c) →
  (∀ c, f (increment c) = increment' (f c)) →
  f <$> findOrPush found increment fresh columns
  = findOrPush found' increment' (f fresh) (f <$> columns).
Proof.
  intros Hfound Hinc. induction columns as [|c columns IH]; [done|].
  cbn [findOrPush fmap list_fmap]. rewrite Hfound.
  destruct (found c); cbn [fmap list_fmap]; [by rewrite Hinc|].
  f_equal. apply IH.
Qed.

Lemma parseTime_fold (times : list string) acc :
  let r := foldl parseTime_step acc times in
  yearSpan <$> r.1.1
  = foldl (λ columns k, tallyStep k columns) (yearSpan <$> acc.1.1)
          (yearOf <$> times)
  ∧ daySpan <$> r.1.2
    = foldl (λ columns k, tallyStep k columns) (daySpan <$> acc.1.2)
            (dayOf <$> times)
  ∧ r.2 = acc.2 ++ (timeOf <$> times).
Proof.
  revert acc. induction times as [|datetime times IH]; intros [[ys ds] ts].
  - cbn. by rewrite app_nil_r.
  - cbn [foldl fmap list_fmap].
    destruct (IH (parseTime_step (ys, ds, ts) datetime)) as (Hy & Hd & Ht).
    assert (yearSpan <$> (parseTime_step (ys, ds, ts) datetime).1.1
            = tallyStep (yearOf datetime) (yearSpan <$> ys)) as Hys.
    { cbn [parseTime_step fst snd]. unfold tallyStep.
      by apply (findOrPush_fmap yearSpan). }
    assert (daySpan <$> (parseTime_step (ys, ds, ts) datetime).1.2
            = tallyStep (dayOf datetime) (daySpan <$> ds)) as Hds.
    { cbn [parseTime_step fst snd]. unfold tallyStep.
      apply (findOrPush_fmap daySpan); [|done].
      intros c. apply bool_decide_ext. unfold dayOf, daySpan. cbn [fst].
      split; [by intros [= -> ->]|by intros [-> ->]]. }
    cbn zeta. rewrite Hy, Hd, Ht, Hys, Hds. cbn [parseTime_step fst snd].
    split_and!; [done..|]. by rewrite <- assoc_L by apply _.
Qed.

Lemma parseTime_closed (times : list string) :
  yearSpan <$> yearColumns (parseTime times) = tally (yearOf <$> times)
  ∧ daySpan <$> dayColumns (parseTime times) = tally (dayOf <$> times)
  ∧ timeColumns (parseTime times) = timeOf <$> times
  ∧ sortedTimes (parseTime times) = times.
Proof.
  destruct (parseTime_fold times ([], [], [])) as (Hy & Hd & Ht).
  unfold parseTime. destruct (foldl parseTime_step _ times) as [[ys ds] ts].
  by cbn in *.
Qed.

Lemma sum_list_with_fmap {A B} (f : B → nat) (g : A → B) (l : list A) :
  sum_list_with f (g <$> l) = sum_list_with (f ∘ g) l.
Proof. induction l as [|x l IH]; [done|]. cbn. by rewrite IH. Qed.

(** X20. The time header: [parseTime] makes one time column per timestamp;
    the year columns carry pairwise distinct years, the day columns pairwise
    distinct (year, day) pairs; every timestamp has its year and its day
    among the columns; the size of a column is the number of timestamps that
    fall into it, never 0; and the sizes of the year columns, like those of
    the day columns, add up to the number of timestamps. *)
Theorem X20_parseTime_columns (times : list string) :
  let r := parseTime times in
  sortedTimes r = times
  ∧ length (timeColumns r) = length times
  ∧ NoDup (YearColumn.year <$> yearColumns r)
  ∧ NoDup ((λ c, (DayColumn.year c, DayColumn.day c)) <$> dayColumns r)
  ∧ (∀ t, t ∈ times →
       yearOf t ∈ YearColumn.year <$> yearColumns r
       ∧ dayOf t ∈ (λ c, (DayColumn.year c, DayColumn.day c)) <$> dayColumns r)
  ∧ (∀ c, c ∈ yearColumns r →
       YearColumn.size c = occurrences (YearColumn.year c) (yearOf <$> times)
       ∧ 0 < YearColumn.size c)
  ∧ (∀ c, c ∈ dayColumns r →
       DayColumn.size c
       = occurrences (DayColumn.year c, DayColumn.day c) (dayOf <$> times)
       ∧ 0 < DayColumn.size c)
  ∧ sum_list_with YearColumn.size (yearColumns r) = length times
  ∧ sum_list_with DayColumn.size (dayColumns r) = length times.
Proof.
  intros r. destruct (parseTime_closed times) as (Hy & Hd & Ht & Hs). fold r in Hy, Hd, Ht, Hs.
  destruct (tally_invariant (yearOf <$> times)) as (Hynd & Hykeys & Hysizes & Hysum).
  destruct (tally_invariant (dayOf <$> times)) as (Hdnd & Hdkeys & Hdsizes & Hdsum).
  rewrite <- Hy in Hynd, Hykeys, Hysizes, Hysum.
  rewrite <- Hd in Hdnd, Hdkeys, Hdsizes, Hdsum.
  assert (∀ columns, (yearSpan <$> columns).*1 = YearColumn.year <$> columns)
    as Hyk by (intros; by rewrite <- list_fmap_compose).
  assert (∀ columns, (daySpan <$> columns).*1
                     = (λ c, (DayColumn.year c, DayColumn.day c)) <$> columns)
    as Hdk by (intros; by rewrite <- list_fmap_compose).
  rewrite Hyk in Hynd. rewrite Hdk in Hdnd.
  setoid_rewrite Hyk in Hykeys. setoid_rewrite Hdk in Hdkeys.
  rewrite sum_list_with_fmap, length_fmap in Hysum.
  rewrite sum_list_with_fmap, length_fmap in Hdsum.
  rewrite Forall_fmap, Forall_forall in Hysizes.
  rewrite Forall_fmap, Forall_forall in Hdsizes.
  split_and!; try done.
  - by rewrite Ht, length_fmap.
  - intros t Ht'. split.
    + apply Hykeys. by apply list_elem_of_fmap_2.
    + apply Hdkeys. by apply list_elem_of_fmap_2.
Qed.

(** X21. The spans line up with the time columns when the timestamps of a
    year, and those of a day, are adjacent (as they are in a list sorted by
    time): read left to right, each year column spanning [size] cells, the
    year header names the year of every timestamp in order, and likewise the
    day header. *)
Theorem X21_parseTime_header_alignment (times : list string) :
  (contiguous (yearOf <$> times) →
   spanned (yearSpan <$> yearColumns (parseTime times)) = yearOf <$> times)
  ∧ (contiguous (dayOf <$> times) →
     spanned (daySpan <$> dayColumns (parseTime times)) = dayOf <$> times).
Proof.
  destruct (parseTime_closed times) as (-> & -> & _).
  split; intros Hc; by apply tally_spanned.
Qed.

Lemma X21_witness :
  spanned (yearSpan <$> yearColumns (parseTime sample_times))
  = ["2024"; "2024"; "2023"]
  ∧ spanned (daySpan <$> dayColumns (parseTime sample_times))
    = [("2024", "01/05"); ("2024", "01/05"); ("2023", "12/31")]
  ∧ timeColumns (parseTime sample_times) = ["14:30"; "08:00"; "23:59"].
Proof.
  destruct (X21_parseTime_header_alignment sample_times) as [Hyears Hdays].
  split_and!.
  - apply Hyears. by apply (bool_decide_unpack _).
  - apply Hdays. by apply (bool_decide_unpack _).
  - reflexivity.
Defined.

(** ** Timeline pivot: when it returns, and what the rows hold *)

Lemma trim_lookup {A} (l : list (option A)) i m :
  trim l !! i = Some (Some m) → l !! i = Some (Some m).
Proof.
  intros Hi. rewrite (trim_pad l). by apply lookup_app_l_Some.
Qed.

Lemma trim_nonempty {A} (l : list (option A)) :
  trim l ≠ [] ↔ ∃ m, Some m ∈ l.
Proof.
  split.
  - intros Hne. destruct (trim_last l Hne) as [m Hm].
    exists m. rewrite (trim_pad l). apply elem_of_app. left.
    apply last_Some in Hm as [l' ->]. set_solver.
  - intros [m Hm] Hnil. apply trim_nil_inv in Hnil. rewrite Hnil in Hm.
    by apply elem_of_replicate in Hm as [? _].
Qed.

Lemma lastNamed_Some key slots m :
  lastNamed key slots = Some m → Some m ∈ slots ∧ rowKey (name m) = key.
Proof.
  unfold lastNamed. intros [l' Hl]%last_Some.
  assert (m ∈ filter (λ m, rowKey (name m) = key) (omap (λ slot, slot) slots))
    as [Hkey Hin]%list_elem_of_filter by (rewrite Hl; set_solver).
  split; [|done]. apply list_elem_of_omap in Hin as (slot & Hslot & Heq).
  by subst.
Qed.

Lemma lastNamed_is_Some key slots m :
  Some m ∈ slots → rowKey (name m) = key → is_Some (lastNamed key slots).
Proof.
  intros Hin Hkey. unfold lastNamed.
  destruct (last _) eqn:Hlast; [done|]. apply last_None in Hlast.
  assert (m ∈ filter (λ m, rowKey (name m) = key) (omap (λ slot, slot) slots))
    as Hm.
  { apply list_elem_of_filter. split; [done|].
    apply list_elem_of_omap. by exists (Some m). }
  rewrite Hlast in Hm. by apply elem_of_nil in Hm.
Qed.

(** X22. [parseEntries] returns exactly when every entry has a [members]
    array (a single test entry makes it throw).  No row it returns is keyed
    by a name that every object inherits, and no row is longer than the
    entry list.  When no member is named [__proto__], the rows are keyed by
    the other names of the members present, and the cell of row [key] in
    column [i] holds a member of the [i]-th entry whose name is [key]. *)
Theorem X22_parseEntries_rows_hold_members (entries : list ObsRecord) :
  (is_Some (parseEntries entries)
   ↔ Forall (λ e : ObsRecord, is_Some (members e)) entries)
  ∧ ∀ rows, parseEntries entries = Some rows →
      (∀ key, inherited key → key ∉ rows.*1)
      ∧ (∀ key row, obj_get rows key = Some row → length row ≤ length entries)
      ∧ (prototypeUntouched entries →
         (∀ key, key ∈ rows.*1 ↔
            ¬ inherited key
            ∧ ∃ entry slots m,
                entry ∈ entries ∧ members entry = Some slots
                ∧ Some m ∈ slots ∧ rowKey (name m) = key)
         ∧ ∀ key row i m,
             obj_get rows key = Some row → row !! i = Some (Some m) →
             rowKey (name m) = key
             ∧ ∃ entry slots,
                 entries !! i = Some entry ∧ members entry = Some slots
                 ∧ Some m ∈ slots).
Proof.
  split; [apply parseEntries_is_Some|]. intros rows Hrows. split_and!.
  - intros key Hkey. apply obj_get_None.
    by apply (parseEntries_not_inherited entries).
  - intros key row. by apply parseEntries_row_length.
  - intros Hproto.
    pose proof (parseEntries_rows entries rows Hproto Hrows) as Hget.
    assert (∀ key i m, column key entries !! i = Some (Some m) →
              rowKey (name m) = key
              ∧ ∃ entry slots, entries !! i = Some entry
                               ∧ members entry = Some slots ∧ Some m ∈ slots)
      as Hcell.
    { intros key i m Hi. unfold column in Hi.
      apply list_lookup_fmap_Some in Hi as (entry & Hnamed & Hentry).
      symmetry in Hnamed. apply lastNamed_Some in Hnamed as [Hin Hkey].
      split; [done|]. exists entry.
      destruct (members entry) as [slots|] eqn:Hslots.
      - by exists slots.
      - by apply elem_of_nil in Hin. }
    split.
    + intros key. split.
      * intros Hkey.
        destruct (obj_get rows key) as [row|] eqn:Hrow.
        2: { by apply obj_get_None in Hrow. }
        rewrite Hget in Hrow. case_decide as Hinh; [done|]. split; [done|].
        apply nonempty_length in Hrow as [-> Hne].
        apply trim_nonempty in Hne as [m Hm].
        apply list_elem_of_lookup in Hm as [i Hi].
        destruct (Hcell key i m Hi) as (Hk & entry & slots & Hentry & Hslots & Hin).
        exists entry, slots, m. split_and!; try done.
        by apply list_elem_of_lookup_2 in Hentry.
      * intros (Hinh & entry & slots & m & Hentry & Hslots & Hin & Hkey).
        destruct (lastNamed_is_Some key slots m Hin Hkey) as [m' Hm'].
        assert (Some m' ∈ column key entries) as Hcol.
        { unfold column. apply list_elem_of_fmap. exists entry.
          split; [|done]. by rewrite Hslots. }
        assert (trim (column key entries) ≠ []) as Hne
          by (apply trim_nonempty; by exists m').
        destruct (obj_get rows key) as [row|] eqn:Hrow.
        -- apply obj_get_Some_elem in Hrow.
           by apply (list_elem_of_fmap_2 fst) in Hrow.
        -- rewrite Hget, decide_False in Hrow by done.
           by destruct (trim (column key entries)).
    + intros key row i m Hrow Hi. rewrite Hget in Hrow.
      case_decide; [done|]. apply nonempty_length in Hrow as [-> _].
      apply trim_lookup in Hi. by apply Hcell.
Qed.

Lemma find_uuid_Some (sortedObs : PatientData) panelUuid kv :
  List.find (λ kv, bool_decide (group_uuid kv.2 = panelUuid)) sortedObs = Some kv →
  kv ∈ sortedObs ∧ group_uuid kv.2 = panelUuid.
Proof.
  intros [Hin Hu%bool_decide_eq_true]%find_some. split; [|done].
  by apply list_elem_of_In.
Qed.

Lemma find_uuid_None (sortedObs : PatientData) panelUuid :
  List.find (λ kv, bool_decide (group_uuid kv.2 = panelUuid)) sortedObs = None
  ↔ ∀ kv, kv ∈ sortedObs → group_uuid kv.2 ≠ panelUuid.
Proof.
  split.
  - intros Hnone kv Hin%list_elem_of_In.
    by apply (find_none _ _ Hnone), bool_decide_eq_false in Hin.
  - intros Hall. destruct (List.find _ sortedObs) as [kv|] eqn:Hfind; [|done].
    apply find_uuid_Some in Hfind as [Hin Hu]. by destruct (Hall kv Hin).
Qed.

(** X23. [useTimelineData] on loaded data: it reports "panel data missing"
    exactly when no group carries the requested uuid; it throws exactly when
    the first group of that uuid holds an entry without a [members] array;
    otherwise it names that group, pivots its entries, and makes a time
    header with one time column per entry, so that no row is longer than the
    time header. *)
Theorem X23_useTimelineData_on_loaded_data (sortedObs : PatientData)
    (panelUuid : string) :
  match useTimelineData (Some sortedObs) true None panelUuid with
  | None =>
      ∃ key group entry,
        List.find (λ kv, bool_decide (group_uuid kv.2 = panelUuid)) sortedObs
        = Some (key, group)
        ∧ entry ∈ entries group ∧ members entry = None
  | Some result =>
      (timeline_error result = Some panel_data_missing
       ↔ ∀ kv, kv ∈ sortedObs → group_uuid kv.2 ≠ panelUuid)
      ∧ (timeline_error result = None
         ↔ ∃ kv, kv ∈ sortedObs ∧ group_uuid kv.2 = panelUuid)
      ∧ (timeline_error result = None →
         ∃ key group rows header,
           (key, group) ∈ sortedObs ∧ group_uuid group = panelUuid
           ∧ panelName result = Some key
           ∧ rowData result = Some rows
           ∧ parseEntries (entries group) = Some rows
           ∧ parsedTime result = Some header
           ∧ sortedTimes header = effectiveDateTime <$> entries group
           ∧ length (timeColumns header) = length (entries group)
           ∧ ∀ k row, obj_get rows k = Some row →
                      length row ≤ length (timeColumns header))
  end.
Proof.
  unfold useTimelineData, Object_entries.
  destruct (List.find _ sortedObs) as [[key group]|] eqn:Hfind.
  - pose proof (find_uuid_Some _ _ _ Hfind) as [Hin Hu]. cbn [snd] in Hu.
    destruct (parseEntries (entries group)) as [rows|] eqn:Hrows;
      cbn [mbind option_bind].
    + cbn [timeline_error panelName rowData parsedTime].
      destruct (parseTime_closed (effectiveDateTime <$> entries group))
        as (_ & _ & Htimes & Hsorted).
      assert (length (timeColumns (parseTime (effectiveDateTime <$> entries group)))
              = length (entries group)) as Hlen
        by (by rewrite Htimes, !length_fmap).
      split_and!.
      * split; [done|]. intros Hall. by destruct (Hall _ Hin).
      * split; [|done]. intros _. by exists (key, group).
      * intros _. exists key, group, rows, (parseTime (effectiveDateTime <$> entries group)).
        split_and!; try done.
        intros k row Hrow. rewrite Hlen.
        by apply (parseEntries_row_length (entries group) rows k).
    + exists key, group.
      assert (¬ Forall (λ e : ObsRecord, is_Some (members e)) (entries group))
        as Hnot.
      { intros Hall%parseEntries_is_Some. rewrite Hrows in Hall.
        by destruct Hall. }
      apply not_Forall_Exists in Hnot; [|apply _].
      apply Exists_exists in Hnot as (entry & Hentry & Hnone).
      exists entry. split_and!; [done|done|].
      unfold compose in Hnone.
      destruct (members entry) as [slots|]; [|done]. destruct Hnone. by eexists.
  - cbn [timeline_error].
    pose proof (proj1 (find_uuid_None _ _) Hfind) as Hall. split_and!.
    + done.
    + split; [done|]. intros (kv & Hin & Hu). by destruct (Hall kv Hin).
    + done.
Qed.


(** ** Member references *)

Lemma String_split_noSlash s :
  noSlash s → String_split "/"%char s = [s].
Proof.
  unfold noSlash. induction s as [|c s IH]; [done|].
  cbn [String.list_ascii_of_string String_split].
  rewrite not_elem_of_cons. intros [Hc Hs].
  destruct (Ascii.eqb_spec c "/"%char) as [->|_]; [done|].
  by rewrite IH.
Qed.

Lemma String_split_segment a r :
  noSlash a →
  String_split "/"%char (a +:+ String "/"%char r) = a :: String_split "/"%char r.
Proof.
  unfold noSlash. induction a as [|c a IH].
  - intros _. reflexivity.
  - cbn [String.list_ascii_of_string]. rewrite not_elem_of_cons. intros [Hc Ha].
    change (String c a +:+ String "/"%char r)
      with (String c (a +:+ String "/"%char r)).
    cbn [String_split].
    destruct (Ascii.eqb_spec c "/"%char) as [->|_]; [done|].
    by rewrite IH.
Qed.

(** X25. Which identifier a member reference names: the text between the
    first and the second slash.  A relative reference [Type/id], with or
    without a version suffix, names [id]; a reference without a slash names
    the key [undefined]; an absolute URL names the empty identifier, so it
    never names an observation. *)
Theorem X25_memberKey_second_segment (a b rest : string) :
  noSlash a →
  (noSlash b →
   memberKey {| reference := a +:+ String "/"%char b |} = b
   ∧ memberKey {| reference := a +:+ String "/"%char (b +:+ String "/"%char rest) |}
     = b)
  ∧ memberKey {| reference := a |} = "undefined"
  ∧ memberKey {| reference := a +:+ String "/"%char (String "/"%char rest) |} = "".
Proof.
  intros Ha. unfold memberKey. cbn [reference]. split_and!.
  - intros Hb. split.
    + by rewrite String_split_segment, String_split_noSlash.
    + by rewrite !String_split_segment.
  - by rewrite String_split_noSlash.
  - by rewrite String_split_segment.
Qed.

Lemma X25_witness :
  memberKey {| reference := "Observation/b" |} = "b"
  ∧ memberKey {| reference := "Observation/b/_history/2" |} = "b"
  ∧ memberKey {| reference := "urn:uuid:b" |} = "undefined"
  ∧ memberKey {| reference := "http://host/fhir/Observation/b" |} = "".
Proof.
  destruct (X25_memberKey_second_segment "Observation" "b" "_history/2")
    as (Hrel & _ & _); [by apply (bool_decide_unpack _)|].
  destruct Hrel as [Hplain Hversioned]; [by apply (bool_decide_unpack _)|].
  destruct (X25_memberKey_second_segment "urn:uuid:b" "" "")
    as (_ & Hbare & _); [by apply (bool_decide_unpack _)|].
  destruct (X25_memberKey_second_segment "http:" "" "host/fhir/Observation/b")
    as (_ & _ & Habsolute); [by apply (bool_decide_unpack _)|].
  split_and!; [exact Hplain|exact Hversioned|exact Hbare|exact Habsolute].
Defined.

(** ** Timestamps *)

Lemma String_split_on_whole s :
  noTimeSeparator s → String_split_on isTimeSeparator s = [s].
Proof.
  unfold noTimeSeparator. induction s as [|c s IH]; [done|].
  cbn [String.list_ascii_of_string String_split_on].
  intros [Hc Hs]%Forall_cons. rewrite Hc. by rewrite IH.
Qed.

Lemma String_split_on_segment a c r :
  noTimeSeparator a → isTimeSeparator c = true →
  String_split_on isTimeSeparator (a +:+ String c r)
  = a :: String_split_on isTimeSeparator r.
Proof.
  unfold noTimeSeparator. intros Ha Hc. induction a as [|c' a IH].
  - change ("" +:+ String c r) with (String c r). cbn [String_split_on].
    by rewrite Hc.
  - cbn [String.list_ascii_of_string] in Ha.
    apply Forall_cons in Ha as [Hc' Ha].
    change (String c' a +:+ String c r) with (String c' (a +:+ String c r)).
    cbn [String_split_on]. rewrite Hc'. by rewrite IH.
Qed.

Lemma String_split_on_first a r :
  noTimeSeparator a →
  (r = "" ∨ ∃ c r', r = String c r' ∧ isTimeSeparator c = true) →
  ∃ pieces, String_split_on isTimeSeparator (a +:+ r) = a :: pieces.
Proof.
  intros Ha [->|(c & r' & -> & Hc)].
  - exists [].
    assert (a +:+ "" = a) as ->
      by (clear Ha; induction a as [|c a IH]; [done|];
          change (String c a +:+ "") with (String c (a +:+ "")); by rewrite IH).
    by apply String_split_on_whole.
  - eexists. by apply String_split_on_segment.
Qed.

(** X26. Reading a timestamp: for [year-month-dayThour:minutes], followed
    by nothing or by a suffix that starts with a separator (seconds, or a
    negative zone offset), the header cells are the year, [month/day] and
    [hour:minutes], whatever the suffix; a string without any separator is
    taken as a year whose day is [undefined/undefined] and whose time is
    [undefined:undefined]. *)
Theorem X26_timestamp_pieces (year month day hour minutes rest : string) :
  noTimeSeparator year →
  (noTimeSeparator month → noTimeSeparator day → noTimeSeparator hour →
   noTimeSeparator minutes →
   (rest = "" ∨ ∃ c rest', rest = String c rest' ∧ isTimeSeparator c = true) →
   let t := timestamp year month day hour minutes rest in
   yearOf t = year
   ∧ dateOf t = month +:+ "/" +:+ day
   ∧ timeOf t = hour +:+ ":" +:+ minutes)
  ∧ yearOf year = year
  ∧ dateOf year = "undefined/undefined"
  ∧ timeOf year = "undefined:undefined".
Proof.
  intros Hy. split.
  - intros Hmo Hd Hh Hmi Hrest t.
    destruct (String_split_on_first minutes rest Hmi Hrest) as [pieces Hpieces].
    assert (String_split_on isTimeSeparator t
            = year :: month :: day :: hour :: minutes :: pieces) as Hsplit.
    { unfold t, timestamp.
      rewrite !String_split_on_segment by done. by rewrite Hpieces. }
    unfold yearOf, dateOf, timeOf. by rewrite Hsplit.
  - unfold yearOf, dateOf, timeOf. by rewrite String_split_on_whole.
Qed.

Lemma X26_witness :
  yearOf "2024-01-05T14:30:00-05:00" = "2024"
  ∧ dateOf "2024-01-05T14:30:00-05:00" = "01/05"
  ∧ timeOf "2024-01-05T14:30:00-05:00" = "14:30"
  ∧ timeOf "20240105" = "undefined:undefined".
Proof.
  assert (noTimeSeparator "2024" ∧ noTimeSeparator "01" ∧ noTimeSeparator "05"
          ∧ noTimeSeparator "14" ∧ noTimeSeparator "30"
          ∧ noTimeSeparator "20240105") as (Hy & Hmo & Hd & Hh & Hmi & Hbare)
    by (split_and!; by apply (bool_decide_unpack _)).
  assert (":00-05:00" = "" ∨ ∃ c rest',
            ":00-05:00" = String c rest' ∧ isTimeSeparator c = true) as Hrest
    by (right; by exists ":"%char, "00-05:00").
  pose proof (proj1 (X26_timestamp_pieces "2024" "01" "05" "14" "30" ":00-05:00" Hy)
                Hmo Hd Hh Hmi Hrest) as (Hyear & Hdate & Htime).
  pose proof (proj2 (X26_timestamp_pieces "20240105" "" "" "" "" "" Hbare))
    as (_ & _ & Hnone).
  split_and!; [exact Hyear|exact Hdate|exact Htime|exact Hnone].
Defined.

(** ** The probe on a remote without observations *)



(** ** Reconstruction: concepts that share a display name *)

Lemma Object_fromEntries_acc_last {V} (acc kvs : JsObject V) k :
  obj_get (foldl (λ o kv, obj_set o kv.1 kv.2) acc kvs) k
  = match last (filter (λ kv, kv.1 = k) kvs) with
    | Some kv => Some kv.2
    | None => obj_get acc k
    end.
Proof.
  revert acc. induction kvs as [|[k' v'] kvs IH] using rev_ind; intros acc.
  - done.
  - rewrite foldl_app, filter_app. cbn [foldl fst snd].
    rewrite obj_get_set, filter_cons, filter_nil. cbn [fst].
    case_decide as Hk.
    + by rewrite last_snoc.
    + by rewrite app_nil_r, IH.
Qed.

(** [Object.fromEntries]: the last pair of a key wins. *)
Lemma Object_fromEntries_last {V} (kvs : JsObject V) k :
  obj_get (Object_fromEntries kvs) k
  = snd <$> last (filter (λ kv, kv.1 = k) kvs).
Proof.
  unfold Object_fromEntries. rewrite Object_fromEntries_acc_last.
  by destruct (last _).
Qed.


Lemma filter_fmap_comm {A B} (f : A → B) (P : B → Prop)
    `{∀ y, Decision (P y)} (l : list A) :
  filter P (f <$> l) = f <$> filter (λ x, P (f x)) l.
Proof.
  induction l as [|x l IH]; [done|].
  rewrite fmap_cons, !filter_cons. case_decide; [|done].
  by rewrite fmap_cons, IH.
Qed.


Section same_display.
Variable Date_parse : string → Z.



End same_display.


(** ** Range records *)

(** X29. [extractMetaInformation] keeps, per uuid, the record of the last
    concept of that uuid and nothing for a uuid that no concept has; the
    record copies the six bounds, the units and the datatype of the concept,
    and it has a [range] exactly when both normal bounds are numbers, the
    range then being (lowNormal, hiNormal). *)
Theorem X29_extractMetaInformation_last_concept_wins
    (concepts : list Concept.ConceptRecord) (u : ConceptUuid) :
  obj_get (extractMetaInformation concepts) u
  = (λ c, (extractMeta c).2) <$> last (filter (λ c, Concept.uuid c = u) concepts)
  ∧ (u ∉ Concept.uuid <$> concepts ↔
     obj_get (extractMetaInformation concepts) u = None)
  ∧ ∀ meta, obj_get (extractMetaInformation concepts) u = Some meta →
      ∃ c, c ∈ concepts ∧ Concept.uuid c = u
           ∧ hiAbsolute meta = Concept.hiAbsolute c
           ∧ hiCritical meta = Concept.hiCritical c
           ∧ hiNormal meta = Concept.hiNormal c
           ∧ lowAbsolute meta = Concept.lowAbsolute c
           ∧ lowCritical meta = Concept.lowCritical c
           ∧ lowNormal meta = Concept.lowNormal c
           ∧ units meta = Concept.units c
           ∧ datatype meta = Concept.datatype c
           ∧ (isNumber (hiNormal meta) ∧ isNumber (lowNormal meta) →
              range meta = Some (lowNormal meta, hiNormal meta))
           ∧ (¬ (isNumber (hiNormal meta) ∧ isNumber (lowNormal meta)) →
              range meta = None).
Proof.
  assert (obj_get (extractMetaInformation concepts) u
          = (λ c, (extractMeta c).2)
              <$> last (filter (λ c, Concept.uuid c = u) concepts)) as Hget.
  { unfold extractMetaInformation. rewrite Object_fromEntries_last.
    rewrite (filter_fmap_comm extractMeta). cbn [extractMeta fst].
    rewrite fmap_last. by destruct (last _). }
  split_and!; [done| |].
  - rewrite obj_get_None. unfold extractMetaInformation.
    rewrite Object_fromEntries_keys, <- list_fmap_compose. done.
  - intros meta. rewrite Hget.
    destruct (last _) as [c|] eqn:Hlast; [|done]. intros [= <-].
    apply last_Some in Hlast as [before Hlast].
    assert (c ∈ filter (λ c, Concept.uuid c = u) concepts)
      as [Hu Hc]%list_elem_of_filter by (rewrite Hlast; set_solver).
    exists c. cbn [extractMeta snd hiAbsolute hiCritical hiNormal lowAbsolute
                   lowCritical lowNormal units datatype range].
    split_and!; try done.
    + intros [Hhi Hlo].
      by destruct (Concept.hiNormal c), (Concept.lowNormal c).
    + intros Hnot.
      destruct (Concept.hiNormal c), (Concept.lowNormal c); try done.
      by destruct Hnot.
Qed.
